(** * Inventory and money core of js/api.js

    A shallow embedding of the Firestore-facing operations of [js/api.js]
    ([addDefectiveItem], [saveNewInvoice], [saveShift], [saveData],
    [loadData], [validateAdminPassword] and the three requests on daily
    expenses), of the figures of [printShipmentInvoice] and
    [exportSalariesToExcel], of [cartSession], and of the part of the
    Firestore SDK contract they rely on (version 10.12.2, the one the
    file imports).  The rendering of pages, PDF files and sheets is left
    out.

    Conventions.
    - JavaScript numbers are integers ([Z]); strings are [string], a
      JavaScript string being identified with its UTF-8 bytes.
    - A Firestore map is a [gmap string _].  Document identifiers hold
      no slash and are used as opaque keys of a collection.  The
      identifier of a document that is about to be created is checked as
      [doc] checks it; the [productId] of a defect or of an invoice item
      refers to a product and is taken to be an identifier that [doc]
      accepts.
    - [runTransaction] and [writeBatch] are the store's atomic primitives:
      what they buffer is applied in one piece or not at all.  Contention
      and the retries it triggers are left out: one writer at a time.

    What is taken from the SDK.
    - Inside a transaction all reads come before all writes:
      [transaction.get] is rejected once a write is buffered.
    - [update] fails when the document does not exist; [set] creates or
      replaces it.  Inside a transaction, the first write to a document
      that was read as missing, when it is an [update], is not buffered:
      its error is kept and thrown by the commit.
    - [update] with a string key addresses a nested field in dot
      notation: the string is split at its dots, and refused when a
      segment is empty or reserved or when it holds one of [~ * / [ ]].
    - [set] with [{merge: true}] overwrites the leaves of the data and
      keeps the other fields of the document.
    - [doc] refuses an identifier that is missing or empty; [getDocs] on
      a collection lists its documents by identifier. *)

From stdpp Require Import gmap strings list fin_maps pretty sorting.
From Stdlib Require Import ZArith Lia Ascii.

#[local] Set Warnings "-register-all,-clear-no-such-hyp".
#[local] Open Scope Z_scope.

(** ** Field trees

    The value of a document field is either a leaf or a map of fields.
    [tree A] is the shape of such a value with leaves in [A]. *)
Module Tree.

Inductive tree (A : Type) : Type :=
  | Leaf (a : A)
  | Node (m : gmap string (tree A)).
Arguments Leaf {A} a.
Arguments Node {A} m.

Definition children {A} (t : tree A) : gmap string (tree A) :=
  match t with
  | Node m => m
  | Leaf _ => ∅
  end.

(** Reading along a list of own keys, as a chain [t?.[k1]?.[k2]...] does:
    anything that is not a map has no own keys. *)
Fixpoint get_path {A} (p : list string) (t : tree A) : option (tree A) :=
  match p with
  | [] => Some t
  | k :: ks =>
      match t with
      | Node m => m !! k ≫= get_path ks
      | Leaf _ => None
      end
  end.

(** Writing along a field path, as Firestore's [update] does: the maps on
    the way are created when absent, and whatever on the way is not a map
    is replaced by one; the siblings are kept. *)
Fixpoint set_path {A} (p : list string) (x : tree A) (t : tree A) : tree A :=
  match p with
  | [] => x
  | k :: ks =>
      Node (<[k := set_path ks x (default (Node ∅) (children t !! k))]>
              (children t))
  end.

(** What [set(ref, data, {merge: true})] does below the top level: the
    leaves of [new] overwrite, an empty map counts as a leaf, and a
    non-empty map is merged field by field into what is there. *)
Fixpoint merge_tree {A} (new old : tree A) {struct new} : tree A :=
  match new with
  | Leaf a => Leaf a
  | Node mn =>
      if decide (size mn = 0%nat) then Node ∅
      else
        Node (merge (λ (f : option (tree A → tree A)) (o : option (tree A)),
                       match f with
                       | Some f => Some (f (default (Node ∅) o))
                       | None => o
                       end)
                    ((λ n, merge_tree n) <$> mn) (children old))
  end.

(** At the top level the data is a map whose fields are merged into the
    document's, the document being created when absent. *)
Definition set_merge {A} (data : gmap string (tree A))
    (old : option (gmap string (tree A))) : gmap string (tree A) :=
  merge (λ (n : option (tree A)) (o : option (tree A)),
           match n with
           | Some n => Some (merge_tree n (default (Node ∅) o))
           | None => o
           end)
        data (default ∅ old).

(** The number of nodes, the measure of the induction on field trees. *)
Fixpoint tsize {A} (t : tree A) : nat :=
  match t with
  | Leaf _ => 1
  | Node m => S (map_fold (λ _ t' acc, (tsize t' + acc)%nat) 0%nat m)
  end.

End Tree.
Export Tree.

(** ** Field paths

    [update] addresses a nested field by a dot-separated string.  The SDK
    turns the string into a list of segments
    ([fieldPathFromDotSeparatedString]) and refuses it when it holds one
    of the characters [~ * / [ ]], when a segment is empty, or when a
    segment is a reserved name (two underscores at both ends). *)
Module FieldPath.

Fixpoint split_dots (s : string) : list string :=
  match s with
  | EmptyString => [EmptyString]
  | String c r =>
      if Ascii.eqb c "."%char then EmptyString :: split_dots r
      else
        match split_dots r with
        | h :: t => String c h :: t
        | [] => [String c EmptyString]
        end
  end.

Fixpoint string_forallb (f : ascii → bool) (s : string) : bool :=
  match s with
  | EmptyString => true
  | String c r => f c && string_forallb f r
  end.

Definition reserved_char (c : ascii) : bool :=
  Ascii.eqb c "~"%char || Ascii.eqb c "*"%char || Ascii.eqb c "/"%char
  || Ascii.eqb c "["%char || Ascii.eqb c "]"%char.

(** The line terminators, which the dot of a regular expression does not
    match: LF, CR, and U+2028 and U+2029 (E2 80 A8 and E2 80 A9 in
    UTF-8). *)
Fixpoint has_line_terminator (s : string) : bool :=
  match s with
  | EmptyString => false
  | String c r =>
      Ascii.eqb c "010"%char || Ascii.eqb c "013"%char
      || (Ascii.eqb c "226"%char
          && (String.prefix (String "128"%char (String "168"%char "")) r
              || String.prefix (String "128"%char (String "169"%char "")) r))
      || has_line_terminator r
  end.

(** The regular expression [/^__.*__$/] of the SDK, on a segment. *)
Definition reserved_segment (s : string) : bool :=
  String.prefix "__" s && String.prefix "__" (String.rev s)
  && (4 <=? String.length s)%nat
  && negb (has_line_terminator s).

Definition valid_segment (s : string) : bool :=
  negb (String.eqb s "") && negb (reserved_segment s).

Definition fromDotSeparatedString (path : string) : option (list string) :=
  if string_forallb (λ c, negb (reserved_char c)) path then
    let segments := split_dots path in
    if forallb valid_segment segments then Some segments else None
  else None.

(** A name that is one segment of a path when spliced between dots. *)
Definition plain_name (s : string) : bool :=
  string_forallb (λ c, negb (Ascii.eqb c "."%char) && negb (reserved_char c)) s
  && valid_segment s.

End FieldPath.

(** ** Documents of the ledger *)

Module Product.
(** A product document: [colors] maps a colour to [{sizes: {size:
    {quantity}}}]; it is kept as a field tree because [update] writes
    into it along string-built paths. *)
Record t := mk {
  id : string;
  name : string;
  purchasePrice : Z;
  colors : option (tree Z)
}.
End Product.

Module Defect.
Record t := mk {
  id : string;
  productId : string;
  color : string;
  size : string;
  quantity : Z;
  purchasePrice : Z;
  reason : string;
  supplierId : string;
  shipmentDate : string
}.
End Defect.

Module Line.
Record t := mk {
  productId : string;
  productName : string;
  color : string;
  size : string;
  quantity : Z;
  purchasePrice : Z
}.
End Line.

Module Shipment.
Record t := mk {
  id : string;
  supplierId : string;
  date : string;
  shippingCost : Z;
  items : list Line.t;
  totalCost : Z
}.
End Shipment.

Module Item.
(** A line item of an incoming invoice; [quantities] is the nested
    object colour -> size -> quantity in the order of
    [Object.entries]. *)
Record t := mk {
  isNew : bool;
  productId : string;
  productData : option Product.t;
  quantities : list (string * list (string * Z))
}.
End Item.

Module Invoice.
Record t := mk {
  supplierId : string;
  date : string;
  shippingCost : Z;
  items : list Item.t
}.
End Invoice.

(** ** The store and its transactions *)
Module Ledger.

Record store := mkStore {
  products : gmap string Product.t;
  defects : gmap string Defect.t;
  shipments : gmap string Shipment.t
}.

(** What the operations can fail with.  [ProductNotFound],
    [InsufficientStock] are thrown by the code; [TypeError] is the
    JavaScript error of reading a property of [undefined]; the last four
    are raised by the SDK. *)
Inductive error :=
  | ProductNotFound (productId : string)
  | InsufficientStock (requested current : Z)
  | TypeError
  | ReadAfterWrite
  | InvalidFieldPath (path : string)
  | DocumentMissing (productId : string)
  | InvalidReference.

(** The value of [x || 0] for a quantity slot [x]: a number, or the object
    found there (any object is truthy). *)
Inductive qval := QNum (z : Z) | QObj.

(** The value of an arithmetic expression over a [qval]: an integer, or
    what JavaScript makes of an object operand. *)
Inductive jsval := JInt (z : Z) | JNaN | JStr (s : string).

(** [x > y], [x - y] and [x + y]: an object operand is converted to the
    string ["[object Object]"], which is not a number. *)
Definition js_gt (x : Z) (y : qval) : bool :=
  match y with
  | QNum c => c <? x
  | QObj => false
  end.

Definition js_sub (x : qval) (y : Z) : jsval :=
  match x with
  | QNum c => JInt (c - y)
  | QObj => JNaN
  end.

Definition js_add (x : qval) (y : Z) : jsval :=
  match x with
  | QNum c => JInt (c + y)
  | QObj => JStr ("[object Object]" +:+ pretty y)
  end.

Definition variant_path (color size : string) : list string :=
  [color; "sizes"; size; "quantity"].

(** [product.colors?.[color]?.sizes?.[size]?.quantity || 0] *)
Definition currentQty (product : Product.t) (color size : string) : qval :=
  match Product.colors product ≫= get_path (variant_path color size) with
  | Some (Leaf z) => QNum z
  | Some (Node _) => QObj
  | None => QNum 0
  end.

(** The template string [`colors.${color}.sizes.${size}.quantity`]. *)
Definition quantity_path (color size : string) : string :=
  "colors." +:+ color +:+ ".sizes." +:+ size +:+ ".quantity".

Inductive mutation :=
  | SetProduct (id : string) (p : Product.t)
  | UpdateProduct (id : string) (path : list string) (v : jsval)
  | SetDefect (id : string) (d : Defect.t)
  | SetShipment (id : string) (s : Shipment.t).

(** A running transaction: the store it reads, the writes it has
    buffered, oldest first, the products it has written to, and the
    error of a write that it keeps for the commit. *)
Record transaction := mkTransaction {
  snapshot : store;
  mutations : list mutation;
  writtenDocs : gset string;
  lastTransactionError : option error
}.

Definition begin (st : store) : transaction := mkTransaction st [] ∅ None.

Inductive outcome (A : Type) :=
  | Ok (a : A)
  | Throw (e : error).
Arguments Ok {A} a.
Arguments Throw {A} e.

Definition tx (A : Type) : Type := transaction → outcome (A * transaction).

#[export] Instance tx_ret : MRet tx := λ A a t, Ok (a, t).
#[export] Instance tx_bind : MBind tx := λ A B f m t,
  match m t with
  | Ok (a, t') => f a t'
  | Throw e => Throw e
  end.

Definition throw {A} (e : error) : tx A := λ _, Throw e.

Definition write (m : mutation) : tx unit := λ t,
  Ok (tt, mkTransaction (snapshot t) (mutations t ++ [m]) (writtenDocs t)
            (lastTransactionError t)).

(** The product [id] has been written to. *)
Definition written (id : string) : tx unit := λ t,
  Ok (tt, mkTransaction (snapshot t) (mutations t) ({[id]} ∪ writtenDocs t)
            (lastTransactionError t)).

(** An error that is kept for the commit. *)
Definition defer (e : error) : tx unit := λ t,
  Ok (tt, mkTransaction (snapshot t) (mutations t) (writtenDocs t) (Some e)).

(** [doc(db, collName, id)] and [doc(collection(db, collName), id)] for a
    document that is about to be created: the empty identifier is
    refused.  (The identifier is a string; the call is refused as well
    when it is [undefined].) *)
Definition doc (id : string) : tx unit :=
  if decide (id = "") then throw InvalidReference else mret ().

(** [transaction.get(doc(db, "products", productId))], [productId]
    referring to a product.  The SDK requires all reads of a transaction
    to be executed before all its writes, and rejects a read issued once
    a write is buffered. *)
Definition tx_get (productId : string) : tx (option Product.t) := λ t,
  match mutations t with
  | [] => Ok (products (snapshot t) !! productId, t)
  | _ :: _ => Throw ReadAfterWrite
  end.

(** [transaction.set(doc(db, 'products', id), p)] *)
Definition tx_set_product (id : string) (p : Product.t) : tx unit :=
  _ ← doc id;
  _ ← write (SetProduct id p);
  written id.

(** [transaction.update(ref, {[path]: v})], [ref] being the product that
    the transaction has just read.  The path is parsed first.  The first
    write to a document that was read as missing is not buffered: its
    error is kept and thrown by the commit.  Any other update is
    buffered, a later update of the same document with the precondition
    that the document exists, which the commit checks. *)
Definition tx_update (id : string) (path : string) (v : jsval) : tx unit :=
  match FieldPath.fromDotSeparatedString path with
  | Some segments => λ t,
      (_ ← (if decide (id ∈ writtenDocs t) then
              write (UpdateProduct id segments v)
            else
              match products (snapshot t) !! id with
              | Some _ => write (UpdateProduct id segments v)
              | None => defer (DocumentMissing id)
              end);
       written id) t
  | None => throw (InvalidFieldPath path)
  end.

(** [transaction.set(doc(collection(db, "defects"), id), d)] *)
Definition tx_set_defect (id : string) (d : Defect.t) : tx unit :=
  _ ← doc id;
  write (SetDefect id d).

(** [transaction.set(doc(db, 'shipments', id), s)] *)
Definition tx_set_shipment (id : string) (s : Shipment.t) : tx unit :=
  _ ← doc id;
  write (SetShipment id s).

(** A [for ... of] loop that threads the local variables [acc]. *)
Fixpoint for_of {A S} (l : list A) (body : A → S → tx S) (acc : S) : tx S :=
  match l with
  | [] => mret acc
  | x :: l => acc' ← body x acc; for_of l body acc'
  end.

(** *** Commit *)

(** An [update] of a document that does not exist fails the commit. *)
Fixpoint check_updates (known : gset string) (ms : list mutation)
    : option error :=
  match ms with
  | [] => None
  | SetProduct id _ :: ms => check_updates ({[id]} ∪ known) ms
  | UpdateProduct id _ _ :: ms =>
      if decide (id ∈ known) then check_updates known ms
      else Some (DocumentMissing id)
  | _ :: ms => check_updates known ms
  end.

Definition set_colors (p : Product.t) (c : tree Z) : Product.t :=
  Product.mk (Product.id p) (Product.name p) (Product.purchasePrice p) (Some c).

(** The fields of a product that [update] reaches are those below
    [colors], where every path built by [quantity_path] starts; a path
    elsewhere is outside the model ([None]). *)
Definition apply_update (path : list string) (v : Z) (p : Product.t)
    : option Product.t :=
  match path with
  | k :: rest =>
      if decide (k = "colors") then
        Some (set_colors p
                (set_path rest (Leaf v) (default (Node ∅) (Product.colors p))))
      else None
  | [] => None
  end.

(** [None]: the write is outside what the model represents (a value that
    is not an integer). *)
Definition apply_mutation (st : store) (m : mutation) : option store :=
  match m with
  | SetProduct id p =>
      Some (mkStore (<[id := p]> (products st)) (defects st) (shipments st))
  | UpdateProduct id path (JInt z) =>
      p ← products st !! id;
      p' ← apply_update path z p;
      Some (mkStore (<[id := p']> (products st)) (defects st) (shipments st))
  | UpdateProduct _ _ _ => None
  | SetDefect id d =>
      Some (mkStore (products st) (<[id := d]> (defects st)) (shipments st))
  | SetShipment id s =>
      Some (mkStore (products st) (defects st) (<[id := s]> (shipments st)))
  end.

Fixpoint apply_all (st : store) (ms : list mutation) : option store :=
  match ms with
  | [] => Some st
  | m :: ms => st' ← apply_mutation st m; apply_all st' ms
  end.

Inductive committed :=
  | Committed (st' : store)
  | Rejected (e : error)
  | Unrepresented.

Definition commit (st : store) (ms : list mutation) : committed :=
  match check_updates (dom (products st)) ms with
  | Some e => Rejected e
  | None =>
      match apply_all st ms with
      | Some st' => Committed st'
      | None => Unrepresented
      end
  end.

(** The result object [{success: true, ...}] or [{success: false,
    message}] that the exported functions return. *)
Inductive response (A : Type) :=
  | Success (a : A)
  | Failure (e : error).
Arguments Success {A} a.
Arguments Failure {A} e.

(** [runTransaction] inside [try]/[catch].  When the body returns, an
    error kept by a write is thrown before anything is sent; otherwise
    the buffered writes are committed.  The result is the store
    afterwards and the response, or [None] when the commit goes through
    with a value the model does not represent. *)
Definition runTransaction {A} (st : store) (body : tx A)
    : option (store * response A) :=
  match body (begin st) with
  | Throw e => Some (st, Failure e)
  | Ok (a, t) =>
      match lastTransactionError t with
      | Some e => Some (st, Failure e)
      | None =>
          match commit st (mutations t) with
          | Committed st' => Some (st', Success a)
          | Rejected e => Some (st, Failure e)
          | Unrepresented => None
          end
      end
  end.

(** *** addDefectiveItem *)

Definition addDefectiveItem_body (defectData : Defect.t) : tx unit :=
  productDoc ← tx_get (Defect.productId defectData);
  match productDoc with
  | None => throw (ProductNotFound (Defect.productId defectData))
  | Some product =>
      let currentQty :=
        currentQty product (Defect.color defectData) (Defect.size defectData) in
      if js_gt (Defect.quantity defectData) currentQty then
        throw (InsufficientStock (Defect.quantity defectData)
                 (match currentQty with QNum c => c | QObj => 0 end))
      else
        let path :=
          quantity_path (Defect.color defectData) (Defect.size defectData) in
        _ ← tx_update (Defect.productId defectData) path
              (js_sub currentQty (Defect.quantity defectData));
        tx_set_defect (Defect.id defectData) defectData
  end.

Definition addDefectiveItem (st : store) (defectData : Defect.t)
    : option (store * response unit) :=
  runTransaction st (addDefectiveItem_body defectData).

(** *** saveNewInvoice *)

Fixpoint remove_dashes (s : string) : string :=
  match s with
  | EmptyString => EmptyString
  | String c r =>
      if Ascii.eqb c "-"%char then remove_dashes r
      else String c (remove_dashes r)
  end.

(** [s.slice(-n)]: the last [n] characters of [s], all of it when it is
    shorter. *)
Definition slice_end (n : nat) (s : string) : string :=
  String.substring (String.length s - n) n s.

(** [`SH${date.replace(/-/g, '')}-${Date.now().toString().slice(-5)}`],
    [now] being the value of [Date.now()]. *)
Definition shipmentId (date : string) (now : N) : string :=
  "SH" +:+ remove_dashes date +:+ "-" +:+ slice_end 5 (pretty now).

(** The two locals the loops update: [totalInvoiceCost] and
    [newShipment.items]. *)
Definition accumulator : Type := Z * list Line.t.

(** The body of the innermost loop, for one entry of a [sizes] object. *)
Definition add_quantity (item : Item.t) (productData : Product.t)
    (color size : string) (quantity : Z) (acc : accumulator)
    : tx accumulator :=
  if 0 <? quantity then
    let currentQty := currentQty productData color size in
    let newQty := js_add currentQty quantity in
    let fieldPath := quantity_path color size in
    _ ← tx_update (Item.productId item) fieldPath newQty;
    mret (acc.1 + quantity * Product.purchasePrice productData,
          acc.2 ++ [Line.mk (Item.productId item) (Product.name productData)
                      color size quantity
                      (Product.purchasePrice productData)])
  else mret acc.

(** The body of the loop over [items]. *)
Definition process_item (item : Item.t) (acc : accumulator)
    : tx accumulator :=
  _ ← (if Item.isNew item then
         match Item.productData item with
         | Some newProduct => tx_set_product (Product.id newProduct) newProduct
         | None => throw TypeError
         end
       else mret ());
  productDoc ← tx_get (Item.productId item);
  let productData :=
    match productDoc with
    | Some data => Some data
    | None => Item.productData item
    end in
  match productData with
  | None => throw (ProductNotFound (Item.productId item))
  | Some productData =>
      for_of (Item.quantities item)
        (λ '(color, sizes) acc,
           for_of sizes
             (λ '(size, quantity) acc,
                add_quantity item productData color size quantity acc)
             acc)
        acc
  end.

Definition saveNewInvoice_body (id : string) (invoiceData : Invoice.t)
    : tx unit :=
  acc ← for_of (Invoice.items invoiceData) process_item (0, []);
  tx_set_shipment id
    (Shipment.mk id (Invoice.supplierId invoiceData)
       (Invoice.date invoiceData) (Invoice.shippingCost invoiceData)
       acc.2 acc.1).

Definition saveNewInvoice (now : N) (st : store) (invoiceData : Invoice.t)
    : option (store * response string) :=
  let id := shipmentId (Invoice.date invoiceData) now in
  match runTransaction st (saveNewInvoice_body id invoiceData) with
  | Some (st', Success _) => Some (st', Success id)
  | Some (st', Failure e) => Some (st', Failure e)
  | None => None
  end.

(** *** The shipment as the specification describes it

    The flattened item list: one line per (colour, size) entry of positive
    quantity, priced from the product data resolved for the item, and the
    total cost of a list of lines. *)

Definition line_of (item : Item.t) (productData : Product.t)
    (color size : string) (quantity : Z) : Line.t :=
  Line.mk (Item.productId item) (Product.name productData) color size
    quantity (Product.purchasePrice productData).

Definition size_lines (item : Item.t) (productData : Product.t)
    (color : string) (sizes : list (string * Z)) : list Line.t :=
  flat_map (λ '(size, quantity),
              if 0 <? quantity
              then [line_of item productData color size quantity]
              else [])
           sizes.

Definition item_lines (productData : Product.t) (item : Item.t)
    : list Line.t :=
  flat_map (λ '(color, sizes), size_lines item productData color sizes)
           (Item.quantities item).

(** The stored document when there is one, the item's payload otherwise. *)
Definition resolve (st : store) (item : Item.t) : option Product.t :=
  match products st !! Item.productId item with
  | Some data => Some data
  | None => Item.productData item
  end.

Definition invoice_lines (st : store) (items : list Item.t) : list Line.t :=
  flat_map (λ item,
              match resolve st item with
              | Some productData => item_lines productData item
              | None => []
              end)
           items.

Definition cost (lines : list Line.t) : Z :=
  foldr (λ l total, Line.quantity l * Line.purchasePrice l + total) 0 lines.

(** The stock of a variant when its slot holds a number. *)
Definition variant_quantity (product : Product.t) (color size : string)
    : option Z :=
  match Product.colors product ≫= get_path (variant_path color size) with
  | Some (Leaf z) => Some z
  | _ => None
  end.

Definition store_nonneg (st : store) : Prop :=
  ∀ id product color size z,
    products st !! id = Some product →
    variant_quantity product color size = Some z → 0 ≤ z.

(** *** Vocabulary for the loops of saveNewInvoice *)

(** A write that the innermost loop buffers for an item. *)
Definition stock_update (item : Item.t) (productData : Product.t)
    (m : mutation) : Prop :=
  ∃ path color size quantity,
    0 < quantity
    ∧ FieldPath.fromDotSeparatedString (quantity_path color size) = Some path
    ∧ m = UpdateProduct (Item.productId item) path
            (js_add (currentQty productData color size) quantity).

(** From [(acc, t)] to [(acc', t')] the lines [lines] were pushed, their
    cost added, and the writes buffered meanwhile satisfy [P]. *)
Definition grows (P : mutation → Prop) (lines : list Line.t)
    (acc : accumulator) (t : transaction)
    (acc' : accumulator) (t' : transaction) : Prop :=
  snapshot t' = snapshot t
  ∧ acc' = (acc.1 + cost lines, acc.2 ++ lines)
  ∧ ∃ ms, mutations t' = mutations t ++ ms ∧ Forall P ms.


(** A store in which no variant slot holds a map: every stock reads as a
    number. *)
Definition numeric (st : store) : Prop :=
  ∀ id product color size,
    products st !! id = Some product →
    currentQty product color size ≠ QObj.

(** A stock update that the commit can carry out on the documents
    [known]. *)
Definition applicable (known : gset string) (m : mutation) : Prop :=
  match m with
  | SetProduct _ _ => False
  | UpdateProduct id path v =>
      id ∈ known ∧ (∃ rest, path = "colors" :: rest) ∧ ∃ z, v = JInt z
  | SetDefect _ _ | SetShipment _ _ => True
  end.

(** A write that keeps the stock non-negative. *)
Definition harmless (m : mutation) : Prop :=
  match m with
  | SetProduct _ _ => False
  | UpdateProduct _ _ v => ∀ z, v = JInt z → 0 ≤ z
  | SetDefect _ _ | SetShipment _ _ => True
  end.

End Ledger.

(** ** Closing a shift *)

Module ShiftData.
Record t := mk {
  id : string;
  startedAt : string;
  endedAt : string;
  endedBy : string;
  expectedInDrawer : Z;
  actual : Z
}.
End ShiftData.

Module Shift.

(** The two places [saveShift] writes: the collection [shifts] and the
    field [lastShiftReportTime] of the document [app_config/main] (absent
    as long as nothing has set it). *)
Record store := mkStore {
  shifts : gmap string ShiftData.t;
  lastShiftReportTime : option string
}.

(** [setDoc] outside a batch is a request of its own, which the store
    acknowledges or refuses (rules, quota, connection).  [answers] are the
    answers to the successive requests of a run, in order; a request
    beyond the list is acknowledged. *)
Inductive answer :=
  | Acked
  | Refused (message : string).

Record world := mkWorld {
  durable : store;
  answers : list answer
}.

Inductive outcome (A : Type) :=
  | Ok (a : A)
  | Throw (message : string).
Arguments Ok {A} a.
Arguments Throw {A} message.

Definition io (A : Type) : Type := world → outcome A * world.

#[export] Instance io_ret : MRet io := λ A a w, (Ok a, w).
#[export] Instance io_bind : MBind io := λ A B f m w,
  match m w with
  | (Ok a, w') => f a w'
  | (Throw e, w') => (Throw e, w')
  end.

(** [await setDoc(ref, data)], [put] being the effect of the write on the
    store. *)
Definition setDoc (put : store → store) : io unit := λ w,
  match answers w with
  | Refused message :: rest => (Throw message, mkWorld (durable w) rest)
  | Acked :: rest => (Ok (), mkWorld (put (durable w)) rest)
  | [] => (Ok (), mkWorld (put (durable w)) [])
  end.

Inductive response :=
  | Success
  | Failure (message : string).

(** [try { ... } catch (error) { return {success: false, ...} }] *)
Definition try_catch (body : io unit) : world → response * world := λ w,
  match body w with
  | (Ok _, w') => (Success, w')
  | (Throw message, w') => (Failure message, w')
  end.

Definition set_shift (shiftData : ShiftData.t) (st : store) : store :=
  mkStore (<[ShiftData.id shiftData := shiftData]> (shifts st))
          (lastShiftReportTime st).

(** [setDoc(doc(db, "app_config", "main"), {lastShiftReportTime: t},
    {merge: true})] *)
Definition merge_lastShiftReportTime (t : string) (st : store) : store :=
  mkStore (shifts st) (Some t).

Definition saveShift (shiftData : ShiftData.t) : world → response * world :=
  try_catch (
    _ ← setDoc (set_shift shiftData);
    setDoc (merge_lastShiftReportTime (ShiftData.endedAt shiftData))).

End Shift.

(** ** Saving the working set *)

Module Sync.

(** Leaves of the configuration document. *)
Inductive scalar :=
  | SNull
  | SBool (b : bool)
  | SNum (z : Z)
  | SStr (s : string)
  | SArr (l : list scalar).

(** A record of the working set: its [id] property ([None] when the
    property is missing) and the rest of its properties. *)
Record item := mkItem {
  id : option string;
  fields : gmap string (tree scalar)
}.

Module Expenses.
Record t := mk {
  rent : tree scalar;
  daily : option (list item)
}.
End Expenses.

(** The in-memory [state] that [saveData] destructures.  A collection is
    [None] when the property is [undefined] or [null]. *)
Record state := mkState {
  products : option (list item);
  sales : option (list item);
  categories : list string;
  customers : option (list item);
  bookings : option (list item);
  salaries : tree scalar;
  salariesPaidStatus : tree scalar;
  expenses : Expenses.t;
  defects : option (list item);
  suppliers : option (list item);
  shipments : option (list item);
  shifts : option (list item);
  users : option (list item);
  lastShiftReportTime : scalar
}.

(** The durable side: the documents, keyed by collection and identifier,
    and the document [app_config/main]. *)
Record store := mkStore {
  docs : gmap (string * string) item;
  config : option (gmap string (tree scalar))
}.

Inductive write :=
  | SetConfig (data : gmap string (tree scalar))
  | SetDoc (collName docId : string) (it : item)
  | DeleteDoc (collName docId : string).

(** [categories.filter(c => c !== 'All')] *)
Definition savedCategories (s : state) : list string :=
  filter (λ c, c ≠ "All") (categories s).

(** The object handed to [batch.set(configRef, ..., {merge: true})]. *)
Definition config_data (s : state) : gmap string (tree scalar) :=
  {[ "categories" := Leaf (SArr (SStr <$> savedCategories s));
     "salaries" := salaries s;
     "salariesPaidStatus" := salariesPaidStatus s;
     "expenses" := Node {[ "rent" := Expenses.rent (expenses s) ]};
     "lastShiftReportTime" := Leaf (lastShiftReportTime s) ]}.

(** The object [collections], in the order of [Object.entries]. *)
Definition collections (s : state) : list (string * option (list item)) :=
  [ ("products", products s); ("sales", sales s);
    ("customers", customers s); ("bookings", bookings s);
    ("defects", defects s); ("suppliers", suppliers s);
    ("shipments", shipments s); ("shifts", shifts s);
    ("users", users s); ("daily_expenses", Expenses.daily (expenses s)) ].

(** [if (item.id)]: the identifier when it is truthy. *)
Definition truthy_id (it : item) : option string :=
  match id it with
  | Some s => if decide (s = "") then None else Some s
  | None => None
  end.

(** The identifiers of the documents of a collection, as
    [getDocs(collection(db, collName))] lists them. *)
Definition existingIds (collName : string) (st : store) : gset string :=
  set_omap (λ k : string * string,
              if decide (k.1 = collName) then Some k.2 else None)
           (dom (docs st)).

(** The callback of [collData.forEach]: it adds to the batch and removes
    from [existingIds]. *)
Definition forEach_item (collName : string)
    (acc : list write * gset string) (it : item) : list write * gset string :=
  match truthy_id it with
  | Some docId => (acc.1 ++ [SetDoc collName docId it], acc.2 ∖ {[docId]})
  | None => acc
  end.

(** The body of the loop over the collections.  The deletions are queued
    in the order in which the set of the remaining identifiers is
    enumerated. *)
Definition sync_collection (st : store)
    (entry : string * option (list item)) : list write :=
  match entry.2 with
  | Some collData =>
      let acc :=
        foldl (forEach_item entry.1) ([], existingIds entry.1 st) collData in
      acc.1 ++ (DeleteDoc entry.1 <$> elements acc.2)
  | None => []
  end.

Definition batch (s : state) (st : store) : list write :=
  SetConfig (config_data s) :: concat (sync_collection st <$> collections s).

Definition apply_write (st : store) (w : write) : store :=
  match w with
  | SetConfig data => mkStore (docs st) (Some (set_merge data (config st)))
  | SetDoc collName docId it =>
      mkStore (<[(collName, docId) := it]> (docs st)) (config st)
  | DeleteDoc collName docId =>
      mkStore (delete (collName, docId) (docs st)) (config st)
  end.

(** [batch.commit()]: the writes are applied in order, in one piece. *)
Definition commit (st : store) (ws : list write) : store :=
  foldl apply_write st ws.

(** The durable effect of a run of [saveData] whose requests the store
    answers.  (When one is refused the [catch] block reports it and
    nothing has been written, the batch being committed last.) *)
Definition saveData (s : state) (st : store) : store :=
  commit st (batch s st).

(** The last record of a list that carries a given identifier: the one
    whose [set] comes last in the batch. *)
Definition last_with_id (docId : string) (l : list item) : option item :=
  foldl (λ r it, if decide (truthy_id it = Some docId) then Some it else r)
        None l.

(** *** Vocabulary for the batch *)

(** The document under the key [k] after the writes [ws], [before] being
    the document under [k] before them. *)
Fixpoint written (k : string * string) (ws : list write)
    (before : option item) : option item :=
  match ws with
  | [] => before
  | SetDoc collName docId it :: ws =>
      written k ws (if decide ((collName, docId) = k) then Some it else before)
  | DeleteDoc collName docId :: ws =>
      written k ws (if decide ((collName, docId) = k) then None else before)
  | SetConfig _ :: ws => written k ws before
  end.

(** The [set] writes queued for the records of a collection. *)
Definition sets_of (collName : string) (collData : list item) : list write :=
  flat_map (λ it, match truthy_id it with
                  | Some docId => [SetDoc collName docId it]
                  | None => []
                  end)
           collData.

(** The identifiers that the records of a collection carry. *)
Definition incoming_ids (collData : list item) : gset string :=
  list_to_set (omap truthy_id collData).

(** The records under which a collection name is synced, if it is. *)
Fixpoint synced (collName : string)
    (entries : list (string * option (list item))) : option (list item) :=
  match entries with
  | [] => None
  | (name, collData) :: entries =>
      if decide (name = collName) then collData else synced collName entries
  end.

End Sync.

(** ** Sample data *)

Module Samples.
Import Ledger.

Definition variant (quantity : Z) : tree Z :=
  Node {[ "quantity" := Leaf quantity ]}.

(** A shoe in red, stocked in the sizes M and 42.5, five of each. *)
Definition runner : Product.t :=
  Product.mk "p1" "Runner" 50
    (Some (Node {[ "red" :=
       Node {[ "sizes" := Node {[ "M" := variant 5; "42.5" := variant 5 ]} ]} ]})).

Definition shop : store := mkStore {[ "p1" := runner ]} ∅ ∅.

Definition defect_of (id size : string) (quantity : Z) : Defect.t :=
  Defect.mk id "p1" "red" size quantity 50 "torn" "s1" "2024-03-01".

(** A product that the store does not hold yet. *)
Definition ball : Product.t := Product.mk "p2" "Ball" 20 None.

Definition restock : Item.t :=
  Item.mk false "p1" None [("red", [("M", 10); ("L", 0)]); ("blue", [("M", 1)])].

Definition new_ball : Item.t :=
  Item.mk true "p2" (Some ball) [("white", [("5", 10)])].

Definition stale_ball : Item.t :=
  Item.mk false "p2" (Some ball) [("white", [("5", 10)])].

Definition unknown_new : Item.t :=
  Item.mk true "p3" None [("white", [("5", 10)])].

(** An item for a product that is gone, and an item that adds nothing. *)
Definition lost : Item.t :=
  Item.mk false "p3" None [("white", [("5", 10)])].

Definition audit : Item.t :=
  Item.mk false "p1" None [("red", [("M", 0)])].

Definition invoice_of (items : list Item.t) : Invoice.t :=
  Invoice.mk "s1" "2024-03-01" 7 items.

(** The store after the restocking invoice. *)
Definition restocked : store :=
  match saveNewInvoice 1709290123456%N shop (invoice_of [restock]) with
  | Some (st', _) => st'
  | None => shop
  end.

End Samples.

Module SyncSamples.
Import Sync.

Definition record (id : string) : item := mkItem (Some id) ∅.

(** A working set whose products are the records 1 and 2, one record
    without identifier, and whose categories start with the sentinel. *)
Definition working_set : state :=
  mkState (Some [record "1"; mkItem None ∅; record "2"]) None
    ["All"; "Shoes"; "Balls"] None None (Node ∅) (Node ∅)
    (Expenses.mk (Node {[ "amount" := Leaf (SNum 0) ]}) None)
    None None None None None (SStr "2024-03-01T18:00:00.000Z").

(** A store that holds the products 1, 2 and 3. *)
Definition cloud : store :=
  mkStore {[ ("products", "1") := record "1";
             ("products", "2") := mkItem (Some "2") {[ "old" := Leaf SNull ]};
             ("products", "3") := record "3" ]}
          None.

End SyncSamples.


(** ** The password check and the daily expenses

    These operations are single requests on the store of [Sync]; they are
    modelled for requests that the store answers. *)

(** A daily expense: its [id] and the properties that [exportShiftToPDF]
    prints for an expense ([e.date], [e.amount], [e.notes]). *)
Module Expense.
Record t := mk {
  id : option string;
  amount : Z;
  date : string;
  notes : string
}.
End Expense.

Module Daily.
Import Sync.

Inductive error :=
  | InvalidReference
  | NotFound
  | InvalidFieldPath (path : string).

Inductive response :=
  | Success
  | Failure (e : error).

(** [configDoc.exists() && configDoc.data().adminPassword === password];
    [true] stands for [{success: true}], [false] for the answer
    ['Incorrect password.']. *)
Definition validateAdminPassword (password : string) (st : store) : bool :=
  match config st with
  | Some data =>
      match data !! "adminPassword" with
      | Some (Leaf (SStr stored)) => bool_decide (stored = password)
      | _ => false
      end
  | None => false
  end.

(** [doc(db, collName, id)] and [doc(collection(db, collName), id)]: an
    identifier that is missing or empty is refused. *)
Definition doc (collName : string) (docId : option string)
    : option (string * string) :=
  match docId with
  | Some s => if decide (s = "") then None else Some (collName, s)
  | None => None
  end.

(** The expense as a document: its [id] property and its other
    properties. *)
Definition properties (expenseData : Expense.t)
    : list (string * tree scalar) :=
  [ ("amount", Leaf (SNum (Expense.amount expenseData)));
    ("date", Leaf (SStr (Expense.date expenseData)));
    ("notes", Leaf (SStr (Expense.notes expenseData))) ].

Definition to_item (expenseData : Expense.t) : item :=
  mkItem (Expense.id expenseData) (list_to_map (properties expenseData)).

Definition saveDailyExpense (expenseData : Expense.t) (st : store)
    : store * response :=
  match doc "daily_expenses" (Expense.id expenseData) with
  | Some docRef =>
      (mkStore (<[docRef := to_item expenseData]> (docs st)) (config st),
       Success)
  | None => (st, Failure InvalidReference)
  end.

(** [updateDoc(ref, data)] reads each key of [data] as a field path in
    dot notation, before anything is sent. *)
Fixpoint parse_update (data : list (string * tree scalar))
    : error + list (list string * tree scalar) :=
  match data with
  | [] => inr []
  | (key, value) :: data =>
      match FieldPath.fromDotSeparatedString key with
      | Some path =>
          match parse_update data with
          | inr parsed => inr ((path, value) :: parsed)
          | inl e => inl e
          end
      | None => inl (InvalidFieldPath key)
      end
  end.

(** The value of each path replaces what the path holds; the other fields
    of the document are kept. *)
Definition write_fields (parsed : list (list string * tree scalar))
    (fields : gmap string (tree scalar)) : gmap string (tree scalar) :=
  foldl (λ fields '(path, value), children (set_path path value (Node fields)))
        fields parsed.

(** [const { id, ...dataToUpdate } = expenseData;
     await updateDoc(doc(db, "daily_expenses", id), dataToUpdate)]: the
    update of a document that does not exist fails. *)
Definition updateDailyExpense (expenseData : Expense.t) (st : store)
    : store * response :=
  match doc "daily_expenses" (Expense.id expenseData) with
  | Some docRef =>
      match parse_update (properties expenseData) with
      | inr parsed =>
          match docs st !! docRef with
          | Some old =>
              (mkStore
                 (<[docRef := mkItem (id old) (write_fields parsed (fields old))]>
                    (docs st))
                 (config st),
               Success)
          | None => (st, Failure NotFound)
          end
      | inl e => (st, Failure e)
      end
  | None => (st, Failure InvalidReference)
  end.

Definition deleteDailyExpense (expenseId : option string) (st : store)
    : store * response :=
  match doc "daily_expenses" expenseId with
  | Some docRef => (mkStore (delete docRef (docs st)) (config st), Success)
  | None => (st, Failure InvalidReference)
  end.

End Daily.

(** ** Loading the working set

    [loadData] is modelled for requests that the store answers; when one
    is refused it returns the error message instead. *)

Module Load.
Import Sync.

(** [x || d] on a field value: [null], [false], [0] and the empty string
    are falsy, as is a field that is missing. *)
Definition truthy (x : tree scalar) : bool :=
  match x with
  | Leaf SNull => false
  | Leaf (SBool b) => b
  | Leaf (SNum z) => negb (z =? 0)
  | Leaf (SStr s) => negb (String.eqb s "")
  | Leaf (SArr _) => true
  | Node _ => true
  end.

Definition js_or (x : option (tree scalar)) (d : tree scalar) : tree scalar :=
  match x with
  | Some v => if truthy v then v else d
  | None => d
  end.

(** The documents of a collection with their identifiers, in the order in
    which [getDocs] lists them: by identifier. *)
Definition collection_docs (collName : string) (st : store)
    : list (string * item) :=
  merge_sort (λ a b : string * item, String.le a.1 b.1)
    (omap (λ entry : string * string * item,
             if decide (entry.1.1 = collName)
             then Some (entry.1.2, entry.2) else None)
          (map_to_list (docs st))).

(** [{ id: doc.id, ...doc.data() }]: an [id] property of the data
    overrides the identifier of the document. *)
Definition with_id (entry : string * item) : item :=
  mkItem (Some (default entry.1 (id entry.2))) (fields entry.2).

(** [snapshot.docs.map(doc => ({ id: doc.id, ...doc.data() }))] *)
Definition load_collection (collName : string) (st : store) : list item :=
  with_id <$> collection_docs collName st.

Module Expenses.
Record t := mk {
  rent : tree scalar;
  daily : list item
}.
End Expenses.

(** The object [data] that [loadData] returns. *)
Record data := mkData {
  products : list item;
  sales : list item;
  customers : list item;
  bookings : list item;
  defects : list item;
  suppliers : list item;
  shipments : list item;
  shifts : list item;
  users : list item;
  daily_expenses : list item;
  config : gmap string (tree scalar);
  categories : tree scalar;
  salaries : tree scalar;
  salariesPaidStatus : tree scalar;
  expenses : Expenses.t;
  lastShiftReportTime : option (tree scalar)
}.

Definition default_rent : tree scalar :=
  Node {[ "amount" := Leaf (SNum 0); "paidStatus" := Node ∅ ]}.

Definition loadData (st : store) : data :=
  let coll name := load_collection name st in
  match Sync.config st with
  | Some configData =>
      mkData (coll "products") (coll "sales") (coll "customers")
        (coll "bookings") (coll "defects") (coll "suppliers")
        (coll "shipments") (coll "shifts") (coll "users")
        (coll "daily_expenses")
        configData
        (js_or (configData !! "categories") (Leaf (SArr [])))
        (js_or (configData !! "salaries") (Node ∅))
        (js_or (configData !! "salariesPaidStatus") (Node ∅))
        (Expenses.mk
           (js_or (get_path ["expenses"; "rent"] (Node configData))
              default_rent)
           (coll "daily_expenses"))
        (configData !! "lastShiftReportTime")
  | None =>
      mkData (coll "products") (coll "sales") (coll "customers")
        (coll "bookings") (coll "defects") (coll "suppliers")
        (coll "shipments") (coll "shifts") (coll "users")
        (coll "daily_expenses")
        ∅ (Leaf (SArr [])) (Node ∅) (Node ∅)
        (Expenses.mk default_rent [])
        None
  end.

End Load.

(** ** The figures of a shipment invoice

    The part of [printShipmentInvoice] that computes what is printed: the
    shipments and defects it selects and the amounts of the summary.  The
    rendering of the page is left out. *)

Module Print.

(** [state.shipments.filter(s => s.supplierId === supplierId &&
    s.date.startsWith(date))] *)
Definition shipmentsOnDate (shipments : list Shipment.t)
    (supplierId date : string) : list Shipment.t :=
  filter (λ s, Shipment.supplierId s = supplierId
               ∧ String.prefix date (Shipment.date s) = true)
         shipments.

(** [state.defects.filter(d => d.supplierId === supplierId &&
    d.shipmentDate === date)] *)
Definition defectsForInvoice (defects : list Defect.t)
    (supplierId date : string) : list Defect.t :=
  filter (λ d, Defect.supplierId d = supplierId
               ∧ Defect.shipmentDate d = date)
         defects.

Definition allItems (shipmentsOnDate : list Shipment.t) : list Line.t :=
  flat_map Shipment.items shipmentsOnDate.

Definition grossCost (shipmentsOnDate : list Shipment.t) : Z :=
  foldl (λ sum s, sum + Shipment.totalCost s) 0 shipmentsOnDate.

(** [(s.shippingCost || 0)] is [s.shippingCost] on a number. *)
Definition shippingCost (shipmentsOnDate : list Shipment.t) : Z :=
  foldl (λ sum s, sum + Shipment.shippingCost s) 0 shipmentsOnDate.

Definition defectsValue (defectsForInvoice : list Defect.t) : Z :=
  foldl (λ sum d, sum + Defect.quantity d * Defect.purchasePrice d) 0
        defectsForInvoice.

(** The number of defective pieces shown beside a line. *)
Definition defectiveCountForItem (defectsForInvoice : list Defect.t)
    (item : Line.t) : Z :=
  foldl (λ sum d, sum + Defect.quantity d) 0
    (filter (λ d, Defect.productId d = Line.productId item
                  ∧ Defect.color d = Line.color item
                  ∧ Defect.size d = Line.size item)
            defectsForInvoice).

Record summary := mkSummary {
  lines : list Line.t;
  gross : Z;
  deducted : Z;
  netCost : Z;
  shipping : Z;
  finalTotal : Z
}.

(** [None]: no shipment matches, a notification is shown and nothing is
    printed. *)
Definition printShipmentInvoice (shipments : list Shipment.t)
    (defects : list Defect.t) (supplierId date : string) : option summary :=
  let shipmentsOnDate := shipmentsOnDate shipments supplierId date in
  if decide (length shipmentsOnDate = 0%nat) then None
  else
    let grossCost := grossCost shipmentsOnDate in
    let shippingCost := shippingCost shipmentsOnDate in
    let defectsValue :=
      defectsValue (defectsForInvoice defects supplierId date) in
    let netCost := grossCost - defectsValue in
    Some (mkSummary (allItems shipmentsOnDate) grossCost defectsValue netCost
            shippingCost (netCost + shippingCost)).

End Print.

(** ** The rows of the salaries sheet

    The part of [exportSalariesToExcel] that builds the rows handed to the
    spreadsheet library. *)

Module SaleItem.
Record t := mk {
  quantity : Z;
  returnedQty : option Z
}.
End SaleItem.

Module Sale.
Record t := mk {
  createdAt : string;
  cashier : string;
  items : list SaleItem.t
}.
End Sale.

Module User.
Record t := mk {
  employeeId : option string;
  username : string;
  phone : option string
}.
End User.

Module SalaryData.
Record t := mk {
  fixed : Z;
  commission : Z;
  bonus : option Z
}.
End SalaryData.

Module Salaries.

Record row := mkRow {
  employeeId : string;
  username : string;
  phone : string;
  fixedSalary : Z;
  commissionPerPiece : Z;
  bonus : Z;
  piecesSold : Z;
  totalCommission : Z;
  totalSalary : Z;
  paid : bool
}.

(** [x || d] on a string that may be missing. *)
Definition or_string (x : option string) (d : string) : string :=
  match x with
  | Some s => if decide (s = "") then d else s
  | None => d
  end.

(** [x || 0] on a number that may be missing. *)
Definition or_zero (x : option Z) : Z := default 0 x.

(** [item.quantity - (item.returnedQty || 0)], summed over a sale. *)
Definition pieces (sale : Sale.t) : Z :=
  foldl (λ itemTotal item,
           itemTotal
           + (SaleItem.quantity item - or_zero (SaleItem.returnedQty item)))
        0 (Sale.items sale).

Definition salesThisMonth (sales : list Sale.t) (month : string)
    : list Sale.t :=
  filter (λ sale, String.prefix month (Sale.createdAt sale) = true) sales.

Definition piecesSoldBy (salesThisMonth : list Sale.t) (username : string)
    : Z :=
  foldl (λ total sale, total + pieces sale) 0
    (filter (λ sale, Sale.cashier sale = username) salesThisMonth).

(** The callback of [state.users.map]. *)
Definition row_of (salaries : gmap string SalaryData.t)
    (salariesPaidStatus : gmap string bool)
    (salesThisMonth : list Sale.t) (month : string) (user : User.t) : row :=
  let userData :=
    default (SalaryData.mk 0 0 (Some 0)) (salaries !! User.username user) in
  let piecesSold := piecesSoldBy salesThisMonth (User.username user) in
  let totalCommission := piecesSold * SalaryData.commission userData in
  let totalSalary :=
    SalaryData.fixed userData + totalCommission
    + or_zero (SalaryData.bonus userData) in
  let isPaid :=
    default false
      (salariesPaidStatus !! (User.username user +:+ "-" +:+ month)) in
  mkRow (or_string (User.employeeId user) "N/A") (User.username user)
    (or_string (User.phone user) "N/A")
    (SalaryData.fixed userData) (SalaryData.commission userData)
    (or_zero (SalaryData.bonus userData))
    piecesSold totalCommission totalSalary isPaid.

(** [selectedSalariesMonth || new Date().toISOString().slice(0, 7)],
    [today] being the ISO date of the day. *)
Definition month_of (selectedSalariesMonth : option string) (today : string)
    : string :=
  or_string selectedSalariesMonth (String.substring 0 7 today).

Definition exportSalariesToExcel (selectedSalariesMonth : option string)
    (today : string) (sales : list Sale.t) (users : list User.t)
    (salaries : gmap string SalaryData.t)
    (salariesPaidStatus : gmap string bool) : list row :=
  let month := month_of selectedSalariesMonth today in
  let salesThisMonth := salesThisMonth sales month in
  row_of salaries salariesPaidStatus salesThisMonth month <$> users.

End Salaries.

(** ** The receipts kept for the session

    [cartSession] keeps the open receipts in the session storage as a
    JSON text.  A text is described by the value that [JSON.parse] makes
    of it; the in-memory receipts are objects whose properties are JSON
    values, a property that is [undefined] being a property that is
    missing.  The storage is taken to accept what [save] writes. *)

Module Cart.

Inductive json :=
  | JNull
  | JBool (b : bool)
  | JNum (z : Z)
  | JStr (s : string)
  | JArr (l : list json)
  | JObj (m : gmap string json).

Record state := mkState {
  receipts : list (gmap string json);
  activeReceiptId : json
}.

(** What [sessionStorage.getItem('bags-receipts')] returns: [null], the
    empty string, a text that [JSON.parse] refuses, or a text with its
    value. *)
Inductive entry :=
  | NoItem
  | Blank
  | Unparsable
  | Parsed (v : json).

Definition truthy (v : json) : bool :=
  match v with
  | JNull => false
  | JBool b => b
  | JNum z => negb (z =? 0)
  | JStr s => negb (String.eqb s "")
  | JArr _ => true
  | JObj _ => true
  end.

(** [x || d], [x] being [None] when it is [undefined]. *)
Definition js_or (x : option json) (d : json) : json :=
  match x with
  | Some v => if truthy v then v else d
  | None => d
  end.

(** [sessionStorage.setItem('bags-receipts', JSON.stringify(state.receipts))] *)
Definition save (s : state) : entry :=
  Parsed (JArr (JObj <$> receipts s)).

(** The callback of [forEach] throws on [null] and, the module being in
    strict mode, on a primitive value that has no [seller]. *)
Definition throws (v : json) : bool :=
  match v with
  | JObj _ => false
  | JArr _ => false
  | _ => true
  end.

Definition as_receipt (v : json) : option (gmap string json) :=
  match v with
  | JObj m => Some m
  | _ => None
  end.

(** [if (receipt.seller === undefined) receipt.seller = ''] *)
Definition default_seller (r : gmap string json) : gmap string json :=
  match r !! "seller" with
  | None => <["seller" := JStr ""]> r
  | Some _ => r
  end.

(** [state.receipts[0]?.id || null] *)
Definition first_id (l : list (gmap string json)) : json :=
  js_or (head l ≫= (.!! "id")) JNull.

(** [state.receipts = []; state.activeReceiptId = null] *)
Definition reset : state := mkState [] JNull.

(** [None]: the text holds an array one of whose elements is itself an
    array, which this model of the receipts does not represent. *)
Definition load (e : entry) : option state :=
  match e with
  | Parsed (JArr l) =>
      if existsb throws l then Some reset
      else
        rs ← mapM as_receipt l;
        let rs' := default_seller <$> rs in
        Some (mkState rs' (first_id rs'))
  | _ => Some reset
  end.

End Cart.

(** ** Digits of the clock *)

Module Clock.

(** The last five digits of a number of five digits or more. *)
Definition last5 (n : N) : string :=
  String (pretty_N_char ((n `div` 10000) `mod` 10)%N)
    (String (pretty_N_char ((n `div` 1000) `mod` 10)%N)
       (String (pretty_N_char ((n `div` 100) `mod` 10)%N)
          (String (pretty_N_char ((n `div` 10) `mod` 10)%N)
             (String (pretty_N_char (n `mod` 10)%N) "")))).

End Clock.

(** ** More sample data *)

Module MoreSamples.
Import Ledger.

(** The sample shop after a defect of three red M. *)
Definition after_defect : store :=
  match addDefectiveItem Samples.shop (Samples.defect_of "d1" "M" 3) with
  | Some (st', _) => st'
  | None => Samples.shop
  end.

(** The restocked shop after the same invoice has come in again, one
    hundred seconds later. *)
Definition restocked_again : store :=
  match saveNewInvoice (1709290123456 + 100000)%N Samples.restocked
          (Samples.invoice_of [Samples.restock]) with
  | Some (st', _) => st'
  | None => Samples.restocked
  end.

End MoreSamples.

Module DeskSamples.
Import Sync.

(** A configuration with a password and the salaries of two employees. *)
Definition office : store :=
  mkStore ∅
    (Some {[ "adminPassword" := Leaf (SStr "s3cret");
             "salaries" :=
               Node {[ "sam" := Node {[ "fixed" := Leaf (SNum 3000) ]};
                       "kim" := Node {[ "fixed" := Leaf (SNum 2500) ]} ]} ]}).

(** A working set in which only sam is left in the salaries. *)
Definition sam_only : state :=
  mkState None None ["All"; "Shoes"] None None
    (Node {[ "sam" := Node {[ "fixed" := Leaf (SNum 3200) ]} ]}) (Node ∅)
    (Sync.Expenses.mk (Node ∅) (Some []))
    None None None None None (SStr "2024-03-01T18:00:00.000Z").

(** The same working set with no salary left at all. *)
Definition nobody : state :=
  mkState None None ["All"; "Shoes"] None None (Node ∅) (Node ∅)
    (Sync.Expenses.mk (Node ∅) None)
    None None None None None (SStr "2024-03-01T18:00:00.000Z").

Definition taxi : Expense.t :=
  Expense.mk (Some "e1") 120 "2024-03-01T10:00:00.000Z" "taxi".

Definition taxi_fixed : Expense.t :=
  Expense.mk (Some "e1") 150 "2024-03-01T10:00:00.000Z" "taxi, both ways".

(** An expense document that carries a field of its own. *)
Definition approved : item :=
  mkItem (Some "e1")
    {[ "amount" := Leaf (SNum 120); "approvedBy" := Leaf (SStr "kim") ]}.

Definition annotated : store :=
  mkStore {[ ("daily_expenses", "e1") := approved ]} None.

End DeskSamples.
(** * Facts about field trees *)
Module TreeFacts.

Lemma tsize_child {A} (m : gmap string (tree A)) k t :
  m !! k = Some t → (tsize t < tsize (Node m))%nat.
Proof.
  intros Hk. cbn [tsize].
  rewrite <- (insert_delete_id m k t Hk).
  rewrite map_fold_insert_L.
  - lia.
  - intros; lia.
  - apply lookup_delete_eq.
Qed.

(** Induction on field trees: a map has the property as soon as all its
    fields have it. *)
Lemma tree_fields_ind {A} (P : tree A → Prop) :
  (∀ a, P (Leaf a)) →
  (∀ m, (∀ k t, m !! k = Some t → P t) → P (Node m)) →
  ∀ t, P t.
Proof.
  intros HL HN.
  assert (H : ∀ n t, (tsize t < n)%nat → P t).
  { induction n as [|n IHn]; intros t Hlt; [lia|].
    destruct t as [a|m]; [apply HL|].
    apply HN. intros k t Hk. apply IHn.
    pose proof (tsize_child m k t Hk). lia. }
  intros t. apply (H (S (tsize t))). lia.
Qed.

Lemma get_set_path_eq {A} (p : list string) (x t : tree A) :
  get_path p (set_path p x t) = Some x.
Proof.
  revert t. induction p as [|k ks IH]; intros t; cbn; [done|].
  rewrite lookup_insert_eq. cbn. apply IH.
Qed.

(** A leaf read after a write of a leaf is the leaf written or a leaf that
    was there before, at the same place. *)
Lemma get_set_path_leaf {A} (p q : list string) (v z : A) (t : tree A) :
  get_path q (set_path p (Leaf v) t) = Some (Leaf z) →
  z = v ∨ get_path q t = Some (Leaf z).
Proof.
  revert q t. induction p as [|k ks IH]; intros q t; cbn [set_path].
  - destruct q; cbn; [|done]. intros [= ->]. by left.
  - destruct q as [|k' qs]; cbn [get_path]; [done|].
    destruct (decide (k = k')) as [->|Hne].
    + rewrite lookup_insert_eq. cbn. intros H.
      apply IH in H as [->|H]; [by left|right].
      destruct t as [a|m]; cbn in *.
      * rewrite lookup_empty in H. cbn in H. by destruct qs.
      * destruct (m !! k') as [c|]; cbn in *; [done|].
        destruct qs; cbn in H; [done|]. by rewrite lookup_empty in H.
    + rewrite lookup_insert_ne by done. intros H. right.
      destruct t as [a|m]; cbn in *; [|done].
      by rewrite lookup_empty in H.
Qed.

Lemma merge_tree_idem {A} (n o : tree A) :
  merge_tree n (merge_tree n o) = merge_tree n o.
Proof.
  revert o. induction n as [a|mn IH] using tree_fields_ind; intros o; [done|].
  cbn [merge_tree]. destruct (decide (size mn = 0%nat)); [done|].
  cbn [merge_tree children]. f_equal. apply map_eq. intros k.
  rewrite !lookup_merge, !lookup_fmap.
  destruct (mn !! k) as [nk|] eqn:Hk; cbn.
  - destruct (children o !! k); cbn; f_equal; by apply (IH k).
  - by destruct (children o !! k).
Qed.

Lemma set_merge_idem {A} (data : gmap string (tree A)) old :
  set_merge data (Some (set_merge data old)) = set_merge data old.
Proof.
  apply map_eq. intros k. unfold set_merge at 1. cbn [default].
  rewrite lookup_merge. unfold set_merge. rewrite lookup_merge.
  destruct (data !! k) as [nk|] eqn:Hk; cbn.
  - rewrite lookup_merge, Hk. f_equal.
    destruct (default ∅ old !! k); cbn; apply merge_tree_idem.
  - rewrite lookup_merge, Hk. by destruct (default ∅ old !! k).
Qed.

Lemma lookup_set_merge {A} (data : gmap string (tree A)) old k a :
  data !! k = Some (Leaf a) → set_merge data old !! k = Some (Leaf a).
Proof.
  intros Hk. unfold set_merge. rewrite lookup_merge, Hk.
  by destruct (default ∅ old !! k).
Qed.

End TreeFacts.

(** * Facts about field paths *)
Module FieldPathFacts.
Import FieldPath.

Lemma string_forallb_app f (a b : string) :
  string_forallb f (a +:+ b) = string_forallb f a && string_forallb f b.
Proof.
  induction a as [|c a IH]; simpl; [done|]. rewrite IH. by destruct (f c).
Qed.

Lemma split_dots_cons (a b : string) :
  string_forallb (λ c, negb (Ascii.eqb c "."%char)) a = true →
  split_dots (a +:+ String "." b) = a :: split_dots b.
Proof.
  induction a as [|c a IH]; simpl; [done|].
  destruct (Ascii.eqb c "."%char); simpl; [done|]. intros H. by rewrite IH.
Qed.

Lemma split_dots_one (a : string) :
  string_forallb (λ c, negb (Ascii.eqb c "."%char)) a = true →
  split_dots a = [a].
Proof.
  induction a as [|c a IH]; simpl; [done|].
  destruct (Ascii.eqb c "."%char); simpl; [done|]. intros H. by rewrite IH.
Qed.

Lemma plain_name_dotfree s :
  plain_name s = true → string_forallb (λ c, negb (Ascii.eqb c "."%char)) s = true.
Proof.
  unfold plain_name. intros [H _]%andb_prop. revert H.
  induction s as [|c s IH]; cbn; [done|].
  intros [[H1 _]%andb_prop H2]%andb_prop. rewrite H1. cbn. by apply IH.
Qed.

Lemma plain_name_unreserved s :
  plain_name s = true → string_forallb (λ c, negb (reserved_char c)) s = true.
Proof.
  unfold plain_name. intros [H _]%andb_prop. revert H.
  induction s as [|c s IH]; cbn; [done|].
  intros [[_ H1]%andb_prop H2]%andb_prop. rewrite H1. cbn. by apply IH.
Qed.

End FieldPathFacts.

(** * Facts about the ledger operations *)
Module LedgerFacts.
Import Ledger.

Ltac tx_unfold :=
  unfold tx_get, tx_update, tx_set_product, tx_set_defect, tx_set_shipment,
    doc in *;
  unfold mbind, tx_bind, mret, tx_ret, throw, write, written, defer in *.

(** The path built for a colour and a size that are plain names has the
    five segments one expects. *)
Lemma quantity_path_plain color size :
  FieldPath.plain_name color = true →
  FieldPath.plain_name size = true →
  FieldPath.fromDotSeparatedString (quantity_path color size)
  = Some ("colors" :: variant_path color size).
Proof.
  intros Hc Hs. unfold FieldPath.fromDotSeparatedString, quantity_path.
  pose proof (FieldPathFacts.plain_name_dotfree _ Hc) as Hcd.
  pose proof (FieldPathFacts.plain_name_dotfree _ Hs) as Hsd.
  pose proof (FieldPathFacts.plain_name_unreserved _ Hc) as Hcu.
  pose proof (FieldPathFacts.plain_name_unreserved _ Hs) as Hsu.
  rewrite !FieldPathFacts.string_forallb_app, Hcu, Hsu. cbn [andb].
  change (FieldPath.string_forallb _ "colors.") with true.
  change (FieldPath.string_forallb _ ".sizes.") with true.
  change (FieldPath.string_forallb _ ".quantity") with true.
  cbn [andb].
  change ("colors." +:+ color +:+ ".sizes." +:+ size +:+ ".quantity")
    with ("colors" +:+ String "."
            (color +:+ String "." ("sizes" +:+ String "."
               (size +:+ String "." "quantity")))).
  rewrite FieldPathFacts.split_dots_cons by done.
  rewrite FieldPathFacts.split_dots_cons by done.
  rewrite FieldPathFacts.split_dots_cons by done.
  rewrite FieldPathFacts.split_dots_cons by done.
  rewrite FieldPathFacts.split_dots_one by done.
  unfold FieldPath.plain_name in Hc, Hs.
  apply andb_prop in Hc as [_ Hc]. apply andb_prop in Hs as [_ Hs].
  cbn [forallb]. rewrite Hc, Hs. done.
Qed.

(** The stock of a variant as a number, when the slot holds one. *)
Lemma currentQty_set_colors product color size path v :
  path = variant_path color size →
  currentQty
    (set_colors product
       (set_path path (Leaf v) (default (Node ∅) (Product.colors product))))
    color size = QNum v.
Proof.
  intros ->. unfold currentQty, set_colors. cbn [Product.colors mbind option_bind].
  by rewrite TreeFacts.get_set_path_eq.
Qed.

Lemma commit_defect st d product path v :
  products st !! Defect.productId d = Some product →
  commit st [UpdateProduct (Defect.productId d) ("colors" :: path) (JInt v);
             SetDefect (Defect.id d) d]
  = Committed
      (mkStore
         (<[Defect.productId d :=
              set_colors product
                (set_path path (Leaf v)
                   (default (Node ∅) (Product.colors product)))]>
            (products st))
         (<[Defect.id d := d]> (defects st)) (shipments st)).
Proof.
  intros Hp. unfold commit. cbn [check_updates].
  destruct (decide (Defect.productId d ∈ dom (products st))) as [_|Hn].
  2:{ exfalso. apply Hn, elem_of_dom. eauto. }
  cbn [apply_all apply_mutation products defects shipments].
  rewrite Hp. cbn [mbind option_bind apply_update].
  destruct (decide ("colors" = "colors")); [|done]. done.
Qed.

(** addDefectiveItem, step by step. *)
Lemma addDefectiveItem_eq st d :
  addDefectiveItem st d
  = match products st !! Defect.productId d with
    | None => Some (st, Failure (ProductNotFound (Defect.productId d)))
    | Some product =>
        let cur := currentQty product (Defect.color d) (Defect.size d) in
        if js_gt (Defect.quantity d) cur then
          Some (st, Failure (InsufficientStock (Defect.quantity d)
                               (match cur with QNum c => c | QObj => 0 end)))
        else
          match FieldPath.fromDotSeparatedString
                  (quantity_path (Defect.color d) (Defect.size d)) with
          | None =>
              Some (st, Failure (InvalidFieldPath
                                   (quantity_path (Defect.color d)
                                      (Defect.size d))))
          | Some path =>
              if decide (Defect.id d = "") then
                Some (st, Failure InvalidReference)
              else
                match commit st
                        [UpdateProduct (Defect.productId d) path
                           (js_sub cur (Defect.quantity d));
                         SetDefect (Defect.id d) d] with
                | Committed st' => Some (st', Success ())
                | Rejected e => Some (st, Failure e)
                | Unrepresented => None
                end
          end
    end.
Proof.
  unfold addDefectiveItem, runTransaction, addDefectiveItem_body, begin.
  tx_unfold. cbn [mutations snapshot writtenDocs].
  destruct (products st !! Defect.productId d) as [product|] eqn:Hp; [|done].
  cbn zeta. destruct (js_gt _ _); [done|].
  destruct (FieldPath.fromDotSeparatedString _) as [path|]; [|done].
  destruct (decide (_ ∈ _)) as [Hin|_]; [set_solver|].
  cbn [snapshot]. rewrite Hp.
  cbn [mutations snapshot writtenDocs lastTransactionError app].
  destruct (decide (Defect.id d = "")); [done|].
  cbn [mutations snapshot writtenDocs lastTransactionError app]. done.
Qed.

(** A defect within the stock, on a variant whose colour and size are
    plain names and under an identifier that is not empty: the stock of
    the variant goes down by the quantity and the defect record is
    stored. *)
Lemma addDefectiveItem_plain st d product cur :
  Defect.id d ≠ "" →
  FieldPath.plain_name (Defect.color d) = true →
  FieldPath.plain_name (Defect.size d) = true →
  products st !! Defect.productId d = Some product →
  currentQty product (Defect.color d) (Defect.size d) = QNum cur →
  Defect.quantity d ≤ cur →
  ∃ product',
    addDefectiveItem st d
    = Some (mkStore (<[Defect.productId d := product']> (products st))
              (<[Defect.id d := d]> (defects st)) (shipments st),
            Success ())
    ∧ currentQty product' (Defect.color d) (Defect.size d)
      = QNum (cur - Defect.quantity d).
Proof.
  intros Hid Hc Hs Hp Hcur Hle. eexists. split.
  - rewrite addDefectiveItem_eq, Hp. cbn zeta. rewrite Hcur.
    cbn [js_gt js_sub]. destruct (Z.ltb_spec cur (Defect.quantity d)); [lia|].
    rewrite (quantity_path_plain _ _ Hc Hs), decide_False by done.
    by rewrite (commit_defect _ _ _ _ _ Hp).
  - by apply currentQty_set_colors.
Qed.

(** [C3] A defect whose quantity exceeds the current quantity of the
    variant is refused with the insufficient-stock error, and the store is
    left as it was: the stock is unchanged and no defect record exists
    that did not exist before. *)
Theorem addDefectiveItem_insufficient st d product cur :
  products st !! Defect.productId d = Some product →
  currentQty product (Defect.color d) (Defect.size d) = QNum cur →
  cur < Defect.quantity d →
  addDefectiveItem st d
  = Some (st, Failure (InsufficientStock (Defect.quantity d) cur)).
Proof.
  intros Hp Hcur Hlt. rewrite addDefectiveItem_eq, Hp. cbn zeta.
  rewrite Hcur. cbn [js_gt].
  destruct (Z.ltb_spec cur (Defect.quantity d)); [done|lia].
Qed.

Lemma addDefectiveItem_insufficient_witness :
  addDefectiveItem Samples.shop (Samples.defect_of "d1" "M" 6)
  = Some (Samples.shop, Failure (InsufficientStock 6 5)).
Proof.
  apply (addDefectiveItem_insufficient Samples.shop
           (Samples.defect_of "d1" "M" 6) Samples.runner 5).
  - reflexivity.
  - reflexivity.
  - cbn. lia.
Defined.

(** The scenario of the specification: a stock of 5, a defect of 3 leaves
    2, and a further defect of 3 is refused and leaves 2. *)
Example addDefectiveItem_scenario :
  ∃ st1 product1,
    addDefectiveItem Samples.shop (Samples.defect_of "d1" "M" 3)
    = Some (st1, Success ())
    ∧ products st1 !! "p1" = Some product1
    ∧ currentQty product1 "red" "M" = QNum 2
    ∧ addDefectiveItem st1 (Samples.defect_of "d2" "M" 3)
      = Some (st1, Failure (InsufficientStock 3 2)).
Proof.
  eexists _, _. split; [vm_compute; reflexivity|].
  repeat split; vm_compute; reflexivity.
Qed.

(** A defect on a product that the store does not hold is refused as
    well, with the not-found error ([productId] being an identifier that
    [doc] accepts). *)
Lemma addDefectiveItem_unknown st d :
  products st !! Defect.productId d = None →
  addDefectiveItem st d
  = Some (st, Failure (ProductNotFound (Defect.productId d))).
Proof.
  intros Hp. by rewrite addDefectiveItem_eq, Hp.
Qed.

(** [C4] On the size 42.5, a defect of 3 out of a stock of 5 is accepted
    and its record stored, but the stock of the variant still reads 5: the
    path [colors.red.sizes.42.5.quantity] is split at every dot, and the 2
    lands in a field [5] of a new entry [42]. *)
Theorem addDefectiveItem_dotted_size :
  ∃ st' product',
    addDefectiveItem Samples.shop (Samples.defect_of "d1" "42.5" 3)
    = Some (st', Success ())
    ∧ defects st' !! "d1" = Some (Samples.defect_of "d1" "42.5" 3)
    ∧ products st' !! "p1" = Some product'
    ∧ currentQty Samples.runner "red" "42.5" = QNum 5
    ∧ currentQty product' "red" "42.5" = QNum 5
    ∧ Product.colors product'
        ≫= get_path ["red"; "sizes"; "42"; "5"; "quantity"]
      = Some (Leaf 2).
Proof.
  eexists _, _. split; [vm_compute; reflexivity|].
  repeat split; vm_compute; reflexivity.
Qed.

(** A colour with a slash makes [update] refuse the path: the defect is
    not recorded at all. *)
Example addDefectiveItem_slash_colour :
  let two_tone :=
    Product.mk "p1" "Runner" 50
      (Some (Node {[ "black/white" :=
         Node {[ "sizes" := Node {[ "M" := Samples.variant 5 ]} ]} ]})) in
  let st := mkStore {[ "p1" := two_tone ]} ∅ ∅ in
  currentQty two_tone "black/white" "M" = QNum 5
  ∧ addDefectiveItem st
      (Defect.mk "d1" "p1" "black/white" "M" 3 50 "torn" "s1" "2024-03-01")
    = Some (st, Failure
                  (InvalidFieldPath "colors.black/white.sizes.M.quantity")).
Proof. split; vm_compute; reflexivity. Qed.

(** ** The loops of saveNewInvoice *)

Lemma cost_app l1 l2 : cost (l1 ++ l2) = cost l1 + cost l2.
Proof.
  unfold cost. induction l1 as [|l l1 IH]; simpl; [done|]. rewrite IH. lia.
Qed.

Lemma grows_refl P acc t : grows P [] acc t acc t.
Proof.
  split; [done|]. split.
  - destruct acc as [c ls]. cbn. f_equal; [lia|by rewrite app_nil_r].
  - exists []. by rewrite app_nil_r.
Qed.

Lemma grows_trans P l1 l2 acc t acc1 t1 acc2 t2 :
  grows P l1 acc t acc1 t1 → grows P l2 acc1 t1 acc2 t2 →
  grows P (l1 ++ l2) acc t acc2 t2.
Proof.
  intros (Hs1 & -> & ms1 & Hm1 & HP1) (Hs2 & -> & ms2 & Hm2 & HP2).
  split; [congruence|]. split.
  - cbn. rewrite cost_app. f_equal; [lia|by rewrite app_assoc].
  - exists (ms1 ++ ms2). split; [by rewrite Hm2, Hm1, app_assoc|].
    by apply Forall_app.
Qed.

Lemma grows_mono (P Q : mutation → Prop) l acc t acc' t' :
  (∀ m, P m → Q m) → grows P l acc t acc' t' → grows Q l acc t acc' t'.
Proof.
  intros HPQ (Hs & Ha & ms & Hm & HP). split; [done|]. split; [done|].
  exists ms. split; [done|]. eapply Forall_impl; eauto.
Qed.

Lemma add_quantity_ok item pd color size quantity acc t acc' t' :
  add_quantity item pd color size quantity acc t = Ok (acc', t') →
  grows (stock_update item pd)
    (if 0 <? quantity then [line_of item pd color size quantity] else [])
    acc t acc' t'.
Proof.
  unfold add_quantity. destruct (Z.ltb_spec 0 quantity) as [Hq|Hq].
  - tx_unfold.
    destruct (FieldPath.fromDotSeparatedString _) as [path|] eqn:Hpath;
      [|done].
    assert (Hline : ∀ c : Z,
      c + quantity * Product.purchasePrice pd
      = c + cost [line_of item pd color size quantity]).
    { intros c. unfold line_of. cbn. lia. }
    assert (stock_update item pd
              (UpdateProduct (Item.productId item) path
                 (js_add (currentQty pd color size) quantity))) as Hm
      by (by exists path, color, size, quantity).
    destruct (decide (Item.productId item ∈ writtenDocs t)) as [Hw|Hw];
      [|destruct (products (snapshot t) !! Item.productId item)];
      intros [= <- <-]; (split; [done|]);
      (split; [cbn; by rewrite Hline|]).
    + eexists [_]. split; [done|]. by apply Forall_singleton.
    + eexists [_]. split; [done|]. by apply Forall_singleton.
    + exists []. split; [by rewrite app_nil_r|done].
  - tx_unfold. intros [= <- <-]. apply grows_refl.
Qed.

Lemma for_of_sizes_ok item pd color sizes acc t acc' t' :
  for_of sizes
    (λ '(size, quantity) acc,
       add_quantity item pd color size quantity acc) acc t
  = Ok (acc', t') →
  grows (stock_update item pd) (size_lines item pd color sizes)
    acc t acc' t'.
Proof.
  revert acc t. induction sizes as [|[size quantity] sizes IH]; intros acc t.
  - cbn. tx_unfold. intros [= <- <-]. apply grows_refl.
  - cbn [for_of]. unfold mbind, tx_bind.
    destruct (add_quantity _ _ _ _ _ _ _) as [[acc1 t1]|] eqn:H1; [|done].
    intros H2. apply add_quantity_ok in H1. apply IH in H2.
    unfold size_lines. cbn [flat_map]. eapply grows_trans; eauto.
Qed.

Lemma for_of_colors_ok item pd quantities acc t acc' t' :
  for_of quantities
    (λ '(color, sizes) acc,
       for_of sizes
         (λ '(size, quantity) acc,
            add_quantity item pd color size quantity acc) acc) acc t
  = Ok (acc', t') →
  grows (stock_update item pd)
    (flat_map (λ '(color, sizes), size_lines item pd color sizes) quantities)
    acc t acc' t'.
Proof.
  revert acc t.
  induction quantities as [|[color sizes] quantities IH]; intros acc t.
  - cbn. tx_unfold. intros [= <- <-]. apply grows_refl.
  - cbn [for_of]. unfold mbind, tx_bind.
    destruct (for_of sizes _ _ _) as [[acc1 t1]|] eqn:H1; [|done].
    intros H2. apply for_of_sizes_ok in H1. apply IH in H2.
    cbn [flat_map]. eapply grows_trans; eauto.
Qed.

(** An item gets through only if it is not flagged new and is read before
    any write is buffered. *)
Lemma process_item_ok item acc t acc' t' :
  process_item item acc t = Ok (acc', t') →
  Item.isNew item = false ∧ mutations t = []
  ∧ ∃ pd, resolve (snapshot t) item = Some pd
          ∧ grows (stock_update item pd) (item_lines pd item) acc t acc' t'.
Proof.
  unfold process_item. unfold mbind at 1 2, tx_bind at 1 2.
  destruct (Item.isNew item) eqn:Hnew.
  - destruct (Item.productData item) as [newProduct|]; tx_unfold; cbn.
    + destruct (decide (Product.id newProduct = "")); cbn; [done|].
      by destruct (mutations t).
    + done.
  - unfold mret at 1, tx_ret at 1. unfold tx_get.
    destruct (mutations t) as [|m ms] eqn:Hms; [|done].
    unfold resolve.
    destruct (products (snapshot t) !! Item.productId item) as [data|].
    + intros H. apply for_of_colors_ok in H. eauto 6.
    + destruct (Item.productData item) as [data|]; [|done].
      intros H. apply for_of_colors_ok in H. eauto 6.
Qed.

Lemma for_of_items_ok items acc t acc' t' :
  for_of items process_item acc t = Ok (acc', t') →
  Forall (λ item, Item.isNew item = false
                  ∧ is_Some (resolve (snapshot t) item)) items
  ∧ grows (λ m, ∃ item pd, item ∈ items
                           ∧ resolve (snapshot t) item = Some pd
                           ∧ stock_update item pd m)
      (invoice_lines (snapshot t) items) acc t acc' t'.
Proof.
  revert acc t. induction items as [|item items IH]; intros acc t.
  - cbn. tx_unfold. intros [= <- <-]. split; [done|apply grows_refl].
  - cbn [for_of]. unfold mbind, tx_bind.
    destruct (process_item item acc t) as [[acc1 t1]|] eqn:H1; [|done].
    intros H2. apply process_item_ok in H1 as (Hnew & _ & pd & Hpd & H1).
    apply IH in H2 as [Hall H2].
    assert (Hs : snapshot t1 = snapshot t) by apply H1.
    rewrite Hs in Hall, H2. split.
    + constructor; [|done]. by rewrite Hpd.
    + unfold invoice_lines. cbn [flat_map]. rewrite Hpd.
      eapply grows_trans.
      * eapply grows_mono; [|exact H1]. intros m Hm.
        exists item, pd. split; [left|done].
      * eapply grows_mono; [|exact H2]. intros m (it & pd' & Hin & Hr & Hm).
        exists it, pd'. split; [by right|done].
Qed.

(** ** Commit *)

Lemma apply_all_app st ms1 ms2 :
  apply_all st (ms1 ++ ms2) = apply_all st ms1 ≫= λ st1, apply_all st1 ms2.
Proof.
  revert st. induction ms1 as [|m ms1 IH]; intros st; cbn; [done|].
  destruct (apply_mutation st m) as [st1|]; cbn; [apply IH|done].
Qed.

Lemma variant_quantity_set_path product path v color size z :
  0 ≤ v →
  (∀ z, variant_quantity product color size = Some z → 0 ≤ z) →
  variant_quantity
    (set_colors product
       (set_path path (Leaf v) (default (Node ∅) (Product.colors product))))
    color size = Some z →
  0 ≤ z.
Proof.
  intros Hv Hold. unfold variant_quantity at 1. unfold set_colors.
  cbn [Product.colors mbind option_bind].
  destruct (get_path _ (set_path _ _ _)) as [[z'|]|] eqn:Hget; [|done..].
  intros [= ->].
  apply TreeFacts.get_set_path_leaf in Hget as [->|Hget]; [done|].
  apply Hold. unfold variant_quantity.
  destruct (Product.colors product) as [c|]; cbn in *; [by rewrite Hget|].
  by rewrite lookup_empty in Hget.
Qed.

Lemma apply_mutation_nonneg st m st' :
  harmless m → store_nonneg st → apply_mutation st m = Some st' →
  store_nonneg st'.
Proof.
  intros Hm Hst. destruct m as [id p|id path v|id d|id s]; cbn.
  - done.
  - destruct v as [v| |]; [|done..].
    destruct (products st !! id) as [p|] eqn:Hp; [|done]. cbn.
    destruct path as [|k rest]; [done|]. cbn.
    destruct (decide (k = "colors")); [|done]. cbn. intros [= <-].
    intros id' p' color size z. cbn [products].
    destruct (decide (id' = id)) as [->|Hne].
    + rewrite lookup_insert_eq. intros [= <-].
      apply variant_quantity_set_path; [by apply (Hm v)|].
      intros z'. by apply (Hst id p).
    + rewrite lookup_insert_ne by done. apply Hst.
  - intros [= <-]. exact Hst.
  - intros [= <-]. exact Hst.
Qed.

Lemma apply_all_nonneg ms st st' :
  Forall harmless ms → store_nonneg st → apply_all st ms = Some st' →
  store_nonneg st'.
Proof.
  revert st. induction ms as [|m ms IH]; intros st Hms Hst; cbn.
  - by intros [= <-].
  - apply Forall_cons in Hms as [Hm Hms].
    destruct (apply_mutation st m) as [st1|] eqn:H1; [|done]. cbn.
    apply IH; [done|]. by eapply apply_mutation_nonneg.
Qed.

(** When no product is created in the transaction, a commit that goes
    through has updated documents of the store only. *)
Lemma check_updates_known known ms :
  Forall (λ m, ∀ id p, m ≠ SetProduct id p) ms →
  check_updates known ms = None →
  Forall (λ m, ∀ id path v, m = UpdateProduct id path v → id ∈ known) ms.
Proof.
  induction ms as [|m ms IH]; [done|].
  intros [Hm Hms]%Forall_cons. cbn.
  destruct m as [id p|id path v|id d|id s].
  - by destruct (Hm id p).
  - destruct (decide (id ∈ known)) as [Hin|]; [|done]. intros Hc.
    constructor; [|by apply IH]. by intros ? ? ? [= <- _ _].
  - intros Hc. constructor; [done|by apply IH].
  - intros Hc. constructor; [done|by apply IH].
Qed.

Lemma currentQty_nonneg st id product color size z :
  store_nonneg st → products st !! id = Some product →
  currentQty product color size = QNum z → 0 ≤ z.
Proof.
  intros Hst Hp. unfold currentQty.
  pose proof (Hst id product color size) as H. unfold variant_quantity in H.
  destruct (Product.colors product ≫= get_path (variant_path color size))
    as [[z'|]|]; [|done|].
  - intros [= <-]. by apply H.
  - intros [= <-]. done.
Qed.

(** ** saveNewInvoice as a whole *)

(** What a run of saveNewInvoice that returns amounts to: either nothing
    was written, or the loop went through and its writes, followed by the
    shipment, were committed. *)
Lemma shipmentId_nonempty date now : shipmentId date now ≠ "".
Proof. done. Qed.

Lemma saveNewInvoice_inv now st inv st' r :
  saveNewInvoice now st inv = Some (st', r) →
  (st' = st ∧ ∃ e, r = Failure e)
  ∨ ∃ acc t,
      r = Success (shipmentId (Invoice.date inv) now)
      ∧ for_of (Invoice.items inv) process_item (0, []) (begin st)
        = Ok (acc, t)
      ∧ commit st
          (mutations t ++
           [SetShipment (shipmentId (Invoice.date inv) now)
              (Shipment.mk (shipmentId (Invoice.date inv) now)
                 (Invoice.supplierId inv) (Invoice.date inv)
                 (Invoice.shippingCost inv) acc.2 acc.1)])
        = Committed st'.
Proof.
  unfold saveNewInvoice, runTransaction, saveNewInvoice_body.
  unfold mbind, tx_bind.
  destruct (for_of _ _ _ _) as [[acc t]|e] eqn:Hloop.
  - tx_unfold. rewrite decide_False by apply shipmentId_nonempty.
    cbn [mutations snapshot lastTransactionError].
    destruct (lastTransactionError t) as [e|];
      [intros [= <- <-]; left; eauto|].
    destruct (commit _ _) as [st1|e|] eqn:Hc; [| |done].
    + intros [= <- <-]. right. by exists acc, t.
    + intros [= <- <-]. left. eauto.
  - intros [= <- <-]. left. eauto.
Qed.

(** [C1] When saveNewInvoice succeeds, the shipment stored under the
    returned identifier lists one line for each (colour, size) entry of
    positive quantity, and its totalCost is the sum over these lines of
    quantity times purchasePrice. *)
Theorem saveNewInvoice_totalCost now st inv st' id :
  saveNewInvoice now st inv = Some (st', Success id) →
  ∃ shipment,
    shipments st' !! id = Some shipment
    ∧ Shipment.items shipment = invoice_lines st (Invoice.items inv)
    ∧ Shipment.totalCost shipment = cost (Shipment.items shipment).
Proof.
  intros [[_ [e [=]]]|(acc & t & [= ->] & Hloop & Hc)]%saveNewInvoice_inv.
  apply for_of_items_ok in Hloop as [_ (_ & -> & _)].
  cbn [snapshot fst snd app] in *.
  unfold commit in Hc. destruct (check_updates _ _); [done|].
  destruct (apply_all st _) as [st1|] eqn:Happ; [|done].
  injection Hc as ->. rewrite apply_all_app in Happ.
  destruct (apply_all st (mutations t)) as [st0|]; [|done].
  cbn in Happ. injection Happ as <-. eexists. split.
  - cbn [shipments]. apply lookup_insert_eq.
  - cbn [Shipment.items Shipment.totalCost]. split; [done|lia].
Qed.

Lemma saveNewInvoice_totalCost_witness :
  ∃ shipment,
    shipments Samples.restocked !! "SH20240301-23456" = Some shipment
    ∧ Shipment.items shipment
      = invoice_lines Samples.shop [Samples.restock]
    ∧ Shipment.totalCost shipment = cost (Shipment.items shipment).
Proof.
  apply (saveNewInvoice_totalCost 1709290123456%N Samples.shop
           (Samples.invoice_of [Samples.restock])).
  vm_compute. reflexivity.
Defined.

(** The restocking invoice on the sample shop: ten red M and one blue M
    at 50 each. *)
Example saveNewInvoice_restock :
  shipments Samples.restocked !! "SH20240301-23456"
  = Some (Shipment.mk "SH20240301-23456" "s1" "2024-03-01" 7
            [Line.mk "p1" "Runner" "red" "M" 10 50;
             Line.mk "p1" "Runner" "blue" "M" 1 50]
            550)
  ∧ (λ p, (currentQty p "red" "M", currentQty p "blue" "M"))
      <$> products Samples.restocked !! "p1"
    = Some (QNum 15, QNum 1).
Proof. split; vm_compute; reflexivity. Qed.

Lemma addDefectiveItem_nonneg st d st' r :
  store_nonneg st → addDefectiveItem st d = Some (st', r) → store_nonneg st'.
Proof.
  intros Hst. rewrite addDefectiveItem_eq.
  destruct (products st !! Defect.productId d) as [product|];
    [|by intros [= <- _]].
  cbn zeta. destruct (js_gt _ _) eqn:Hgt; [by intros [= <- _]|].
  destruct (FieldPath.fromDotSeparatedString _) as [path|];
    [|by intros [= <- _]].
  destruct (decide (Defect.id d = "")); [by intros [= <- _]|].
  unfold commit.
  destruct (check_updates _ _); [by intros [= <- _]|].
  destruct (apply_all st _) as [st1|] eqn:Happ; [|done].
  intros [= <- _]. eapply apply_all_nonneg; [|done|exact Happ].
  repeat constructor. intros z.
  destruct (currentQty _ _ _) as [c|]; cbn in *; [|done].
  intros [= <-]. lia.
Qed.

Lemma saveNewInvoice_nonneg now st inv st' r :
  store_nonneg st → saveNewInvoice now st inv = Some (st', r) →
  store_nonneg st'.
Proof.
  intros Hst [[-> _]|(acc & t & _ & Hloop & Hc)]%saveNewInvoice_inv; [done|].
  apply for_of_items_ok in Hloop as [_ (_ & _ & ms & Hms & HP)].
  cbn [begin mutations snapshot app] in *. rewrite Hms in Hc.
  unfold commit in Hc.
  destruct (check_updates _ _) eqn:Hchk; [done|].
  destruct (apply_all st _) as [st1|] eqn:Happ; [|done].
  injection Hc as ->. eapply apply_all_nonneg; [|done|exact Happ].
  apply check_updates_known in Hchk.
  2:{ apply Forall_app. split; [|by repeat constructor].
      eapply Forall_impl; [exact HP|]. cbn.
      intros m (item & pd & _ & _ & path & c & s & q & _ & _ & ->). done. }
  apply Forall_app in Hchk as [Hchk _].
  apply Forall_app. split; [|by repeat constructor].
  apply Forall_forall. intros m Hm.
  rewrite Forall_forall in HP, Hchk.
  destruct (HP m Hm)
    as (item & pd & _ & Hr & path & c & s & q & Hq & _ & ->).
  specialize (Hchk _ Hm _ _ _ eq_refl).
  apply elem_of_dom in Hchk as [p Hp].
  unfold resolve in Hr. rewrite Hp in Hr. injection Hr as ->.
  cbn. intros z.
  destruct (currentQty pd c s) as [c'|] eqn:Hcur; cbn; [|done].
  intros [= <-]. pose proof (currentQty_nonneg _ _ _ _ _ _ Hst Hp Hcur). lia.
Qed.

(** [C2] Starting from a store in which every variant quantity is
    non-negative, recording a defect and committing an invoice leave every
    variant quantity non-negative, whatever they return. *)
Theorem quantities_stay_nonneg st :
  store_nonneg st →
  (∀ d st' r, addDefectiveItem st d = Some (st', r) → store_nonneg st')
  ∧ (∀ now inv st' r,
       saveNewInvoice now st inv = Some (st', r) → store_nonneg st').
Proof.
  intros Hst. split.
  - intros d st' r. by apply addDefectiveItem_nonneg.
  - intros now inv st' r. by apply saveNewInvoice_nonneg.
Qed.

Lemma shop_nonneg : store_nonneg Samples.shop.
Proof.
  intros id product color size z Hp Hv. cbn [products Samples.shop] in Hp.
  apply lookup_singleton_Some in Hp as [<- <-].
  unfold variant_quantity, variant_path, Samples.runner in Hv.
  cbn [Product.colors mbind option_bind get_path] in Hv.
  destruct (decide (color = "red")) as [->|Hc].
  2:{ rewrite lookup_singleton_ne in Hv by done. done. }
  rewrite lookup_singleton_eq in Hv. cbn [mbind option_bind] in Hv.
  rewrite lookup_singleton_eq in Hv. cbn [mbind option_bind] in Hv.
  destruct (decide (size = "M")) as [->|Hm].
  { rewrite lookup_insert_eq in Hv. vm_compute in Hv. by injection Hv as <-. }
  rewrite lookup_insert_ne in Hv by done.
  destruct (decide (size = "42.5")) as [->|Hh].
  { rewrite lookup_singleton_eq in Hv. vm_compute in Hv. by injection Hv as <-. }
  rewrite lookup_singleton_ne in Hv by done. done.
Qed.

Lemma quantities_stay_nonneg_witness :
  store_nonneg Samples.shop
  ∧ (∀ d st' r,
       addDefectiveItem Samples.shop d = Some (st', r) → store_nonneg st')
  ∧ (∀ now inv st' r,
       saveNewInvoice now Samples.shop inv = Some (st', r) →
       store_nonneg st').
Proof.
  split; [exact shop_nonneg|].
  exact (quantities_stay_nonneg Samples.shop shop_nonneg).
Defined.

(** ** Items that cannot be processed *)

Lemma for_of_items_missing items item acc t :
  item ∈ items → resolve (snapshot t) item = None →
  ∃ e, for_of items process_item acc t = Throw e.
Proof.
  intros Hin Hr. revert acc t Hr.
  induction items as [|x items IH]; intros acc t Hr; [by inversion Hin|].
  cbn [for_of]. unfold mbind, tx_bind.
  destruct (process_item x acc t) as [[acc1 t1]|e] eqn:H1; [|eauto].
  apply process_item_ok in H1 as (_ & _ & pd & Hpd & Hs & _).
  apply elem_of_cons in Hin as [->|Hin]; [congruence|].
  apply IH; [done|]. by rewrite Hs.
Qed.

Lemma for_of_items_flagged items item acc t :
  item ∈ items → Item.isNew item = true →
  ∃ e, for_of items process_item acc t = Throw e.
Proof.
  intros Hin Hnew. revert acc t.
  induction items as [|x items IH]; intros acc t; [by inversion Hin|].
  cbn [for_of]. unfold mbind, tx_bind.
  destruct (process_item x acc t) as [[acc1 t1]|e] eqn:H1; [|eauto].
  apply process_item_ok in H1 as (Hx & _).
  apply elem_of_cons in Hin as [->|Hin]; [congruence|]. by apply IH.
Qed.




Lemma saveNewInvoice_throw now st inv e :
  for_of (Invoice.items inv) process_item (0, []) (begin st)
  = Throw e →
  saveNewInvoice now st inv = Some (st, Failure e).
Proof.
  intros H. unfold saveNewInvoice, runTransaction, saveNewInvoice_body.
  unfold mbind, tx_bind. by rewrite H.
Qed.

(** An invoice with an item flagged new never commits: the product is
    written before the item's product is read. *)
Lemma saveNewInvoice_flagged_new now st inv item :
  item ∈ Invoice.items inv → Item.isNew item = true →
  ∃ e, saveNewInvoice now st inv = Some (st, Failure e).
Proof.
  intros Hin Hnew.
  destruct (for_of_items_flagged _ _ (0, []) (begin st) Hin Hnew)
    as [e He].
  exists e. by apply saveNewInvoice_throw.
Qed.

(** An invoice with an item whose product data is missing (no stored
    document, no payload) fails and leaves the store as it was: no stock
    is increased, no product created, no shipment stored. *)
Lemma saveNewInvoice_missing_product_aborts now st inv item :
  item ∈ Invoice.items inv →
  products st !! Item.productId item = None →
  Item.productData item = None →
  ∃ e, saveNewInvoice now st inv = Some (st, Failure e).
Proof.
  intros Hin Hdoc Hdata.
  destruct (for_of_items_missing (Invoice.items inv) item (0, [])
              (begin st) Hin) as [e He].
  { unfold resolve. cbn [begin snapshot]. by rewrite Hdoc. }
  exists e. by apply saveNewInvoice_throw.
Qed.

(** When no write is buffered before the item is read, the failure is
    the product-not-found error: after an item that adds nothing, and
    after an item whose update of a missing product was not buffered. *)
Example saveNewInvoice_missing_product_alone :
  saveNewInvoice 0%N Samples.shop
    (Samples.invoice_of [Samples.audit; Samples.lost])
  = Some (Samples.shop, Failure (ProductNotFound "p3"))
  ∧ saveNewInvoice 0%N Samples.shop
      (Samples.invoice_of [Samples.stale_ball; Samples.lost])
    = Some (Samples.shop, Failure (ProductNotFound "p3")).
Proof. split; vm_compute; reflexivity. Qed.

(** [C5] An invoice whose second item has no product data (no stored
    document, no payload), after a first item that restocks a product of
    the store: the invoice fails and the store is left as it was, but the
    failure is not the product-not-found error.  The stock update of the
    first item is buffered, so the read of the second item's product is
    rejected before the code can look at what it found. *)
Theorem saveNewInvoice_missing_product_read_rejected :
  products Samples.shop !! Item.productId Samples.lost = None
  ∧ Item.productData Samples.lost = None
  ∧ Item.isNew Samples.lost = false
  ∧ saveNewInvoice 1709290123456%N Samples.shop
      (Samples.invoice_of [Samples.restock; Samples.lost])
    = Some (Samples.shop, Failure ReadAfterWrite)
  ∧ ∀ id, @Failure string ReadAfterWrite ≠ Failure (ProductNotFound id).
Proof.
  split; [reflexivity|]. split; [reflexivity|]. split; [reflexivity|].
  split; [vm_compute; reflexivity|done].
Qed.

(** [C9] A product absent from the store whose item carries a payload:
    flagged new, the invoice is rejected because the product is written
    before the read; not flagged, it is rejected because the stock update
    addresses a document that does not exist.  Neither invoice is
    committed, and the store is left as it was. *)
Theorem saveNewInvoice_payload_rejected :
  products Samples.shop !! "p2" = None
  ∧ saveNewInvoice 1709290123456%N Samples.shop
      (Samples.invoice_of [Samples.new_ball])
    = Some (Samples.shop, Failure ReadAfterWrite)
  ∧ saveNewInvoice 1709290123456%N Samples.shop
      (Samples.invoice_of [Samples.stale_ball])
    = Some (Samples.shop, Failure (DocumentMissing "p2")).
Proof. repeat split; vm_compute; reflexivity. Qed.

(** ** The outcomes are represented

    On a store whose stocks all read as numbers, both operations return a
    store and a response: the commit never has to write a value that is
    not an integer. *)

Lemma quantity_path_head color size path :
  FieldPath.fromDotSeparatedString (quantity_path color size) = Some path →
  ∃ rest, path = "colors" :: rest.
Proof.
  unfold FieldPath.fromDotSeparatedString, quantity_path.
  destruct (FieldPath.string_forallb _ _); [|done].
  destruct (forallb _ _); [|done]. intros [= <-].
  exists (FieldPath.split_dots
            (color +:+ ".sizes." +:+ size +:+ ".quantity")).
  apply (FieldPathFacts.split_dots_cons "colors"). done.
Qed.

Lemma apply_all_applicable st ms :
  Forall (applicable (dom (products st))) ms → is_Some (apply_all st ms).
Proof.
  revert st. induction ms as [|m ms IH]; intros st; [by eexists|].
  intros [Hm Hms]%Forall_cons. cbn [apply_all].
  destruct m as [id p|id path v|id d|id s]; cbn in Hm |- *.
  - done.
  - destruct Hm as ([p Hp]%elem_of_dom & [rest ->] & [z ->]).
    rewrite Hp. cbn. apply IH. cbn [products].
    rewrite dom_insert_L.
    replace ({[id]} ∪ dom (products st)) with (dom (products st)); [done|].
    apply elem_of_dom_2 in Hp. set_solver.
  - by apply IH.
  - by apply IH.
Qed.

Lemma commit_applicable st ms :
  (check_updates (dom (products st)) ms = None →
   Forall (applicable (dom (products st))) ms) →
  commit st ms ≠ Unrepresented.
Proof.
  intros H. unfold commit.
  destruct (check_updates _ _); [done|].
  destruct (apply_all_applicable st ms (H eq_refl)) as [st' ->]. done.
Qed.

Lemma addDefectiveItem_represented st d :
  numeric st → is_Some (addDefectiveItem st d).
Proof.
  intros Hnum. rewrite addDefectiveItem_eq.
  destruct (products st !! Defect.productId d) as [product|] eqn:Hp;
    [|by eexists].
  cbn zeta. destruct (js_gt _ _); [by eexists|].
  destruct (FieldPath.fromDotSeparatedString _) as [path|] eqn:Hpath;
    [|by eexists].
  destruct (decide (Defect.id d = "")); [by eexists|].
  destruct (commit _ _) as [st'|e|] eqn:Hc; [by eexists..|].
  exfalso. revert Hc. apply commit_applicable. intros _.
  repeat constructor.
  - apply elem_of_dom. eauto.
  - by apply quantity_path_head in Hpath.
  - pose proof (Hnum _ _ (Defect.color d) (Defect.size d) Hp).
    destruct (currentQty _ _ _); [by eexists|done].
Qed.

Lemma saveNewInvoice_represented now st inv :
  numeric st → is_Some (saveNewInvoice now st inv).
Proof.
  intros Hnum. unfold saveNewInvoice, runTransaction, saveNewInvoice_body.
  unfold mbind, tx_bind.
  destruct (for_of _ _ _ _) as [[acc t]|e] eqn:Hloop; [|by eexists].
  tx_unfold. rewrite decide_False by apply shipmentId_nonempty.
  cbn [mutations snapshot lastTransactionError].
  destruct (lastTransactionError t); [by eexists|].
  destruct (commit _ _) as [st'|e|] eqn:Hc; [by eexists..|].
  exfalso. revert Hc. apply commit_applicable. intros Hchk.
  apply for_of_items_ok in Hloop as [_ (_ & _ & ms & Hms & HP)].
  cbn [begin mutations snapshot app] in *. rewrite Hms in Hchk |- *.
  apply check_updates_known in Hchk.
  2:{ apply Forall_app. split; [|by repeat constructor].
      eapply Forall_impl; [exact HP|]. cbn.
      intros m (item & pd & _ & _ & path & c & s & q & _ & _ & ->). done. }
  apply Forall_app in Hchk as [Hchk _].
  apply Forall_app. split; [|by repeat constructor].
  apply Forall_forall. intros m Hm.
  rewrite Forall_forall in HP, Hchk.
  destruct (HP m Hm)
    as (item & pd & _ & Hr & path & c & s & q & Hq & Hpath & ->).
  specialize (Hchk _ Hm _ _ _ eq_refl). cbn. split; [done|].
  split; [by apply quantity_path_head in Hpath|].
  apply elem_of_dom in Hchk as [p Hp].
  unfold resolve in Hr. rewrite Hp in Hr. injection Hr as ->.
  pose proof (Hnum _ _ c s Hp).
  destruct (currentQty pd c s); [by eexists|done].
Qed.

End LedgerFacts.
(** * Facts about closing a shift *)
Module ShiftFacts.
Import Shift.

Lemma saveShift_acked shiftData st rest :
  saveShift shiftData (mkWorld st (Acked :: Acked :: rest))
  = (Success,
     mkWorld (mkStore (<[ShiftData.id shiftData := shiftData]> (shifts st))
                (Some (ShiftData.endedAt shiftData)))
       rest).
Proof. reflexivity. Qed.

Lemma saveShift_refused shiftData st message rest :
  saveShift shiftData (mkWorld st (Refused message :: rest))
  = (Failure message, mkWorld st rest).
Proof. reflexivity. Qed.

(** [C8] When the store acknowledges the first write of saveShift and
    refuses the second, saveShift reports a failure while the shift
    document is stored and the marker lastShiftReportTime is what it was
    before: the two writes are not one atomic step. *)
Theorem saveShift_partial_write shiftData st message rest :
  ∃ st',
    saveShift shiftData (mkWorld st (Acked :: Refused message :: rest))
    = (Failure message, mkWorld st' rest)
    ∧ shifts st' !! ShiftData.id shiftData = Some shiftData
    ∧ lastShiftReportTime st' = lastShiftReportTime st.
Proof.
  eexists. split; [reflexivity|]. split; [|reflexivity].
  cbn. apply lookup_insert_eq.
Qed.

(** On a store that has never closed a shift: the shift is stored, the
    marker is still absent, and the caller is told that saving failed. *)
Example saveShift_first_shift :
  let shiftData :=
    ShiftData.mk "shift-1" "2024-03-01T09:00" "2024-03-01T18:00" "sam" 900 900
  in
  saveShift shiftData
    (mkWorld (mkStore ∅ None) [Acked; Refused "permission-denied"])
  = (Failure "permission-denied",
     mkWorld (mkStore {[ "shift-1" := shiftData ]} None) []).
Proof. reflexivity. Qed.

End ShiftFacts.

(** * Facts about saving the working set *)
Module SyncFacts.
Import Sync.

Lemma elem_of_concat {A} (x : A) (ls : list (list A)) :
  x ∈ concat ls ↔ ∃ l, x ∈ l ∧ l ∈ ls.
Proof.
  induction ls as [|l ls IH]; cbn.
  - split; [by intros H; inversion H|]. by intros (l & _ & H); inversion H.
  - rewrite elem_of_app, IH. split.
    + intros [H|(l' & H1 & H2)]; [exists l|exists l'];
        (split; [done|]); [by left|by right].
    + intros (l' & H1 & [->|H2]%elem_of_cons); [by left|right; eauto].
Qed.

Lemma elem_of_flat_map {A B} (f : A → list B) (y : B) (l : list A) :
  y ∈ flat_map f l ↔ ∃ x, y ∈ f x ∧ x ∈ l.
Proof.
  induction l as [|a l IH]; cbn.
  - split; [by intros H; inversion H|]. by intros (x & _ & H); inversion H.
  - rewrite elem_of_app, IH. split.
    + intros [H|(x & H1 & H2)]; [exists a|exists x];
        (split; [done|]); [by left|by right].
    + intros (x & H1 & [->|H2]%elem_of_cons); [by left|right; eauto].
Qed.

(** ** Reading the store after a batch *)

Lemma docs_commit st ws k :
  docs (commit st ws) !! k = written k ws (docs st !! k).
Proof.
  unfold commit. revert st.
  induction ws as [|w ws IH]; intros st; cbn [foldl written]; [done|].
  rewrite IH. destruct w as [data|c i it|c i]; cbn [apply_write docs].
  - done.
  - destruct (decide ((c, i) = k)) as [<-|Hne].
    + by rewrite lookup_insert_eq.
    + by rewrite lookup_insert_ne.
  - destruct (decide ((c, i) = k)) as [<-|Hne].
    + by rewrite lookup_delete_eq.
    + by rewrite lookup_delete_ne.
Qed.

Lemma config_commit st ws :
  config (commit st ws)
  = foldl (λ c w, match w with
                  | SetConfig data => Some (set_merge data c)
                  | _ => c
                  end) (config st) ws.
Proof.
  unfold commit. revert st.
  induction ws as [|w ws IH]; intros st; cbn [foldl]; [done|].
  rewrite IH. by destruct w.
Qed.

Lemma written_app k ws1 ws2 before :
  written k (ws1 ++ ws2) before = written k ws2 (written k ws1 before).
Proof.
  revert before. induction ws1 as [|w ws1 IH]; intros before; [done|].
  destruct w; cbn [app written]; apply IH.
Qed.

(** ** The writes of one collection *)

Lemma incoming_ids_cons it l :
  incoming_ids (it :: l)
  = match truthy_id it with
    | Some i => {[i]} ∪ incoming_ids l
    | None => incoming_ids l
    end.
Proof. unfold incoming_ids. simpl. by destruct (truthy_id it). Qed.

Lemma foldl_forEach_item collName collData acc :
  foldl (forEach_item collName) acc collData
  = (acc.1 ++ sets_of collName collData, acc.2 ∖ incoming_ids collData).
Proof.
  revert acc. induction collData as [|it collData IH]; intros [ws ids].
  - change (incoming_ids []) with (∅ : gset string).
    cbn [foldl sets_of flat_map fst snd].
    by rewrite app_nil_r, difference_empty_L.
  - cbn [foldl]. rewrite IH, incoming_ids_cons. unfold forEach_item, sets_of.
    cbn [flat_map]. destruct (truthy_id it) as [i|]; cbn [fst snd].
    + by rewrite <- app_assoc, difference_difference_l_L.
    + done.
Qed.

Lemma sync_collection_eq st collName collData :
  sync_collection st (collName, Some collData)
  = sets_of collName collData
    ++ (DeleteDoc collName
          <$> elements (existingIds collName st ∖ incoming_ids collData)).
Proof.
  unfold sync_collection. cbn [fst snd].
  by rewrite foldl_forEach_item.
Qed.

Lemma elem_of_existingIds collName st i :
  i ∈ existingIds collName st ↔ is_Some (docs st !! (collName, i)).
Proof.
  unfold existingIds. rewrite elem_of_set_omap. split.
  - intros ([c j] & Hin & Hk). cbn in Hk.
    destruct (decide (c = collName)) as [->|]; [|done].
    injection Hk as ->. by apply elem_of_dom.
  - intros H. exists (collName, i). split; [by apply elem_of_dom|].
    cbn. by destruct (decide (collName = collName)).
Qed.

Lemma last_with_id_app i l1 l2 :
  last_with_id i (l1 ++ l2)
  = match last_with_id i l2 with
    | Some it => Some it
    | None => last_with_id i l1
    end.
Proof.
  unfold last_with_id. rewrite foldl_app.
  generalize (foldl (λ r it, if decide (truthy_id it = Some i)
                             then Some it else r) None l1) as r.
  induction l2 as [|it l2 IH] using rev_ind; intros r; [by destruct r|].
  rewrite !foldl_app. cbn.
  destruct (decide (truthy_id it = Some i)); [done|]. apply IH.
Qed.

Lemma last_with_id_cons i it l :
  last_with_id i (it :: l)
  = match last_with_id i l with
    | Some it' => Some it'
    | None => if decide (truthy_id it = Some i) then Some it else None
    end.
Proof. apply (last_with_id_app i [it] l). Qed.

Lemma last_with_id_Some i l it :
  last_with_id i l = Some it → it ∈ l ∧ truthy_id it = Some i.
Proof.
  induction l as [|x l IH]; [done|]. rewrite last_with_id_cons.
  destruct (last_with_id i l) as [it'|].
  - intros [= ->]. destruct IH as [Hin Hid]; [done|]. split; [by right|done].
  - destruct (decide (truthy_id x = Some i)); [|done].
    intros [= ->]. split; [by left|done].
Qed.

Lemma last_with_id_None i l :
  last_with_id i l = None ↔ i ∉ incoming_ids l.
Proof.
  induction l as [|x l IH].
  - change (incoming_ids []) with (∅ : gset string). split; [set_solver|done].
  - rewrite last_with_id_cons, incoming_ids_cons.
    destruct (last_with_id i l) as [it'|].
    + split; [done|]. intros Hn. exfalso.
      assert (i ∉ incoming_ids l) as Hl
        by (destruct (truthy_id x); set_solver).
      by apply IH in Hl.
    + destruct IH as [IH _]. specialize (IH eq_refl).
      destruct (truthy_id x) as [j|] eqn:Hx.
      * destruct (decide (Some j = Some i)) as [[= ->]|Hne].
        -- split; [done|set_solver].
        -- split; [|done]. intros _.
           assert (j ≠ i) by congruence. set_solver.
      * by destruct (decide (None = Some i)).
Qed.

Lemma written_sets_of collName collData i before :
  written (collName, i) (sets_of collName collData) before
  = match last_with_id i collData with
    | Some it => Some it
    | None => before
    end.
Proof.
  revert before. induction collData as [|it l IH]; intros before; [done|].
  rewrite last_with_id_cons. unfold sets_of in *. cbn [flat_map].
  rewrite written_app, IH.
  destruct (last_with_id i l) as [it'|]; [done|].
  destruct (truthy_id it) as [j|]; cbn [written].
  - destruct (decide ((collName, j) = (collName, i))) as [[= ->]|Hne].
    + by destruct (decide (Some i = Some i)).
    + destruct (decide (Some j = Some i)) as [[= ->]|]; [done|done].
  - by destruct (decide (None = Some i)).
Qed.

Lemma written_deletes collName (ids : list string) i before :
  written (collName, i) (DeleteDoc collName <$> ids) before
  = if decide (i ∈ ids) then None else before.
Proof.
  revert before. induction ids as [|j ids IH]; intros before.
  - cbn. rewrite decide_False; [done|]. by intros H; inversion H.
  - cbn [fmap list_fmap written]. rewrite IH.
    destruct (decide ((collName, j) = (collName, i))) as [[= ->]|Hne].
    + rewrite (decide_True (P := i ∈ i :: ids)) by apply list_elem_of_here.
      by destruct (decide (i ∈ ids)).
    + assert (j ≠ i) by congruence.
      destruct (decide (i ∈ ids)) as [Hin|Hin].
      * rewrite decide_True; [done|by apply list_elem_of_further].
      * rewrite decide_False; [done|].
        intros [->|H']%elem_of_cons; done.
Qed.

(** The writes of a collection leave under each of its keys the last
    incoming record that carries the identifier, and nothing when there is
    none. *)
Lemma written_sync_collection st collName collData i :
  written (collName, i) (sync_collection st (collName, Some collData))
    (docs st !! (collName, i))
  = last_with_id i collData.
Proof.
  rewrite sync_collection_eq, written_app, written_sets_of, written_deletes.
  destruct (last_with_id i collData) as [it|] eqn:Hlast.
  - apply last_with_id_Some in Hlast as [Hin Hid].
    destruct (decide (i ∈ elements _)) as [H|]; [|done].
    apply elem_of_elements in H. exfalso.
    assert (i ∈ incoming_ids collData); [|set_solver].
    unfold incoming_ids. apply elem_of_list_to_set, list_elem_of_omap. eauto.
  - destruct (decide (i ∈ elements _)) as [|H]; [done|].
    apply last_with_id_None in Hlast.
    rewrite elem_of_elements in H.
    destruct (docs st !! (collName, i)) as [it|] eqn:Hdoc; [|done].
    exfalso. apply H. apply elem_of_difference. split; [|done].
    apply elem_of_existingIds. eauto.
Qed.

Lemma written_sync_collection_other st entry k before :
  entry.1 ≠ k.1 → written k (sync_collection st entry) before = before.
Proof.
  destruct entry as [name [collData|]]; cbn [fst]; intros Hne; [|done].
  rewrite sync_collection_eq, written_app.
  assert (H1 : ∀ l b, written k (sets_of name l) b = b).
  { induction l as [|it l IH]; intros b; [done|].
    unfold sets_of in *. cbn [flat_map]. rewrite written_app, IH.
    destruct (truthy_id it) as [j|]; [|done]. cbn.
    destruct (decide ((name, j) = k)) as [<-|]; [done|done]. }
  assert (H2 : ∀ (l : list string) b,
             written k (DeleteDoc name <$> l) b = b).
  { induction l as [|j l IH]; intros b; [done|]. cbn. rewrite IH.
    destruct (decide ((name, j) = k)) as [<-|]; [done|done]. }
  by rewrite H1, H2.
Qed.

(** ** The whole batch *)

Lemma written_entries_other st entries k before :
  k.1 ∉ entries.*1 →
  written k (concat (sync_collection st <$> entries)) before = before.
Proof.
  induction entries as [|entry entries IH]; [done|].
  cbn [fmap list_fmap concat]. intros Hn.
  apply not_elem_of_cons in Hn as [Hne Hn].
  rewrite written_app, written_sync_collection_other by done. by apply IH.
Qed.

Lemma written_entries st entries k :
  NoDup entries.*1 →
  written k (concat (sync_collection st <$> entries)) (docs st !! k)
  = match synced k.1 entries with
    | Some collData => last_with_id k.2 collData
    | None => docs st !! k
    end.
Proof.
  induction entries as [|[name collData] entries IH]; [done|].
  cbn [fmap list_fmap concat synced]. intros [Hn Hnd]%NoDup_cons.
  rewrite written_app. destruct (decide (name = k.1)) as [->|Hne].
  - rewrite written_entries_other by done.
    destruct k as [c i], collData as [l|]; cbn [fst snd]; [|done].
    apply written_sync_collection.
  - rewrite written_sync_collection_other by done. by apply IH.
Qed.

Lemma collections_NoDup s : NoDup (collections s).*1.
Proof. cbn. apply (bool_decide_unpack _). by vm_compute. Qed.

Lemma synced_elem entries name collData :
  NoDup entries.*1 → (name, collData) ∈ entries →
  synced name entries = collData.
Proof.
  induction entries as [|[n c] entries IH]; intros Hnd Hin;
    [by inversion Hin|].
  cbn in Hnd. apply NoDup_cons in Hnd as [Hn Hnd]. cbn [synced].
  apply elem_of_cons in Hin as [[= <- <-]|Hin].
  - by rewrite decide_True.
  - rewrite decide_False; [by apply IH|].
    intros ->. apply Hn. apply list_elem_of_fmap. by exists (name, collData).
Qed.

(** The documents after saveData: a synced collection holds the last
    incoming record under each identifier, the rest of the store is
    untouched. *)
Lemma saveData_docs s st k :
  docs (saveData s st) !! k
  = match synced k.1 (collections s) with
    | Some collData => last_with_id k.2 collData
    | None => docs st !! k
    end.
Proof.
  unfold saveData, batch. rewrite docs_commit. cbn [written].
  apply written_entries, collections_NoDup.
Qed.

Lemma sync_collection_no_config st entry :
  Forall (λ w, ∀ data, w ≠ SetConfig data) (sync_collection st entry).
Proof.
  destruct entry as [name [collData|]]; [|constructor].
  rewrite sync_collection_eq. apply Forall_app. split.
  - unfold sets_of. induction collData as [|it l IH]; [constructor|].
    cbn [flat_map]. apply Forall_app. split; [|done].
    destruct (truthy_id it); repeat constructor. done.
  - apply Forall_fmap, Forall_true. done.
Qed.

Lemma saveData_config s st :
  config (saveData s st) = Some (set_merge (config_data s) (config st)).
Proof.
  unfold saveData, batch. rewrite config_commit. cbn [foldl].
  generalize (Some (set_merge (config_data s) (config st))) as c.
  assert (H : Forall (λ w, ∀ data, w ≠ SetConfig data)
                (concat (sync_collection st <$> collections s))).
  { apply Forall_concat, Forall_fmap, Forall_true.
    intros entry. apply sync_collection_no_config. }
  induction H as [|w ws Hw _ IH]; intros c; [done|].
  cbn [foldl]. rewrite IH. destruct w; [by destruct (Hw data)|done..].
Qed.

(** [C6] For a collection that saveData syncs, the identifiers the store
    holds afterwards are those of the incoming records that carry one;
    under each of them stands an incoming record with that identifier (the
    last one); an identifier held before and absent from the incoming
    records is deleted; and a record without identifier is never
    written. *)
Theorem saveData_sync s st collName collData :
  (collName, Some collData) ∈ collections s →
  existingIds collName (saveData s st) = incoming_ids collData
  ∧ (∀ it i,
       it ∈ collData → truthy_id it = Some i →
       ∃ it', it' ∈ collData ∧ truthy_id it' = Some i
              ∧ last_with_id i collData = Some it'
              ∧ docs (saveData s st) !! (collName, i) = Some it')
  ∧ (∀ i,
       i ∈ existingIds collName st → i ∉ incoming_ids collData →
       docs (saveData s st) !! (collName, i) = None)
  ∧ (∀ it,
       it ∈ collData → truthy_id it = None →
       ∀ c i, SetDoc c i it ∉ batch s st).
Proof.
  intros Hin.
  assert (Hdocs : ∀ i,
    docs (saveData s st) !! (collName, i) = last_with_id i collData).
  { intros i. rewrite saveData_docs. cbn [fst snd].
    by rewrite (synced_elem _ _ _ (collections_NoDup s) Hin). }
  split; [|split; [|split]].
  - apply set_eq. intros i. rewrite elem_of_existingIds, Hdocs.
    destruct (last_with_id i collData) as [it|] eqn:Hl.
    + split; [|by eauto]. intros _.
      destruct (decide (i ∈ incoming_ids collData)) as [|Hn]; [done|].
      apply last_with_id_None in Hn. congruence.
    + split; [by intros [? [=]]|]. intros Hi.
      by apply last_with_id_None in Hl.
  - intros it i Hit Hid. rewrite Hdocs.
    destruct (last_with_id i collData) as [it'|] eqn:Hl.
    + apply last_with_id_Some in Hl as [? ?]. eauto.
    + apply last_with_id_None in Hl. exfalso. apply Hl.
      unfold incoming_ids. apply elem_of_list_to_set, list_elem_of_omap. eauto.
  - intros i _ Hn. rewrite Hdocs. by apply last_with_id_None.
  - intros it _ Hid c i Hw. unfold batch in Hw.
    apply elem_of_cons in Hw as [[=]|Hw].
    apply elem_of_concat in Hw as (ws & Hw & Hws).
    apply list_elem_of_fmap in Hws as ([name [l|]] & -> & _);
      [|by inversion Hw].
    rewrite sync_collection_eq in Hw. apply elem_of_app in Hw as [Hw|Hw].
    + unfold sets_of in Hw. apply elem_of_flat_map in Hw as (x & Hw & _).
      destruct (truthy_id x) as [j|] eqn:Hx; [|by inversion Hw].
      apply list_elem_of_singleton in Hw. injection Hw as -> -> ->.
      congruence.
    + apply list_elem_of_fmap in Hw as (j & [=] & _).
Qed.

Lemma saveData_sync_witness :
  existingIds "products" (saveData SyncSamples.working_set SyncSamples.cloud)
  = incoming_ids
      [SyncSamples.record "1"; mkItem None ∅; SyncSamples.record "2"]
  ∧ (∀ it i,
       it ∈ [SyncSamples.record "1"; mkItem None ∅; SyncSamples.record "2"] →
       truthy_id it = Some i →
       ∃ it', it' ∈ [SyncSamples.record "1"; mkItem None ∅;
                     SyncSamples.record "2"]
              ∧ truthy_id it' = Some i
              ∧ last_with_id i
                  [SyncSamples.record "1"; mkItem None ∅;
                   SyncSamples.record "2"] = Some it'
              ∧ docs (saveData SyncSamples.working_set SyncSamples.cloud)
                  !! ("products", i) = Some it')
  ∧ (∀ i,
       i ∈ existingIds "products" SyncSamples.cloud →
       i ∉ incoming_ids
             [SyncSamples.record "1"; mkItem None ∅; SyncSamples.record "2"] →
       docs (saveData SyncSamples.working_set SyncSamples.cloud)
         !! ("products", i) = None)
  ∧ (∀ it,
       it ∈ [SyncSamples.record "1"; mkItem None ∅; SyncSamples.record "2"] →
       truthy_id it = None →
       ∀ c i, SetDoc c i it
              ∉ batch SyncSamples.working_set SyncSamples.cloud).
Proof.
  apply (saveData_sync SyncSamples.working_set SyncSamples.cloud "products"
           [SyncSamples.record "1"; mkItem None ∅; SyncSamples.record "2"]).
  apply list_elem_of_here.
Defined.

(** The scenario of the specification: the store holds 1, 2 and 3, the
    incoming records are 1 and 2; afterwards it holds 1 and 2, with the
    incoming records as documents. *)
Example saveData_scenario :
  docs (saveData SyncSamples.working_set SyncSamples.cloud)
  = {[ ("products", "1") := SyncSamples.record "1";
       ("products", "2") := SyncSamples.record "2" ]}.
Proof. vm_compute. reflexivity. Qed.

(** [C7] Running saveData a second time on the same working set, with no
    other writer in between, leaves the store as the first run left it. *)
Theorem saveData_idempotent s st :
  saveData s (saveData s st) = saveData s st.
Proof.
  assert (H : ∀ a b, docs a = docs b → config a = config b → a = b).
  { intros [d1 c1] [d2 c2]. cbn. by intros -> ->. }
  apply H.
  - apply map_eq. intros k. rewrite !saveData_docs.
    by destruct (synced k.1 (collections s)).
  - rewrite !saveData_config. f_equal. apply TreeFacts.set_merge_idem.
Qed.

(** [C10] After saveData the categories of the configuration document
    are the in-memory categories without the sentinel All, which is
    therefore not among them. *)
Theorem saveData_categories s st :
  ∃ c,
    config (saveData s st) = Some c
    ∧ c !! "categories" = Some (Leaf (SArr (SStr <$> savedCategories s)))
    ∧ ("All" ∉ savedCategories s)
    ∧ SStr "All" ∉ (SStr <$> savedCategories s).
Proof.
  eexists. split; [apply saveData_config|].
  assert (Hall : "All" ∉ savedCategories s).
  { unfold savedCategories. intros [H _]%list_elem_of_filter. done. }
  split; [|split; [done|]].
  - apply TreeFacts.lookup_set_merge. unfold config_data.
    apply lookup_insert_eq.
  - intros (c & [= <-] & Hc)%list_elem_of_fmap. done.
Qed.

End SyncFacts.
(** * Further facts about the ledger operations *)
Module LedgerMore.
Import Ledger LedgerFacts Clock.

(** ** Reading beside a write *)



(** ** Recording defects *)




(** addDefectiveItem writes no shipment. *)
Lemma addDefectiveItem_shipments st d st' r :
  addDefectiveItem st d = Some (st', r) → shipments st' = shipments st.
Proof.
  rewrite addDefectiveItem_eq.
  destruct (products st !! Defect.productId d) as [product|] eqn:Hp;
    [|by intros [= <- _]].
  cbn zeta. destruct (js_gt _ _); [by intros [= <- _]|].
  destruct (FieldPath.fromDotSeparatedString _) as [path|];
    [|by intros [= <- _]].
  destruct (decide (Defect.id d = "")); [by intros [= <- _]|].
  unfold commit.
  destruct (check_updates _ _); [by intros [= <- _]|].
  cbn [apply_all apply_mutation].
  destruct (js_sub _ _) as [v| |]; [|done..].
  rewrite Hp. cbn [mbind option_bind].
  destruct (apply_update path v product) as [product'|]; [|done].
  cbn. by intros [= <- _].
Qed.

(** [X2] Whatever it returns, addDefectiveItem leaves the shipments, the
    other products and the other defect records as they were, and neither
    creates nor deletes a product. *)
Theorem addDefectiveItem_frame st d st' r :
  addDefectiveItem st d = Some (st', r) →
  shipments st' = shipments st
  ∧ dom (products st') = dom (products st)
  ∧ (∀ id, id ≠ Defect.productId d →
           products st' !! id = products st !! id)
  ∧ (∀ id, id ≠ Defect.id d → defects st' !! id = defects st !! id).
Proof.
  rewrite addDefectiveItem_eq.
  destruct (products st !! Defect.productId d) as [product|] eqn:Hp;
    [|by intros [= <- _]].
  cbn zeta. destruct (js_gt _ _); [by intros [= <- _]|].
  destruct (FieldPath.fromDotSeparatedString _) as [path|];
    [|by intros [= <- _]].
  destruct (decide (Defect.id d = "")); [by intros [= <- _]|].
  unfold commit.
  destruct (check_updates _ _); [by intros [= <- _]|].
  cbn [apply_all apply_mutation].
  destruct (js_sub _ _) as [v| |]; [|done..].
  rewrite Hp. cbn [mbind option_bind].
  destruct (apply_update path v product) as [product'|]; [|done].
  cbn. intros [= <- _]. cbn [products defects shipments].
  split; [done|]. split; [|split].
  - rewrite dom_insert_L. apply elem_of_dom_2 in Hp. set_solver.
  - intros id Hne. by rewrite lookup_insert_ne.
  - intros id Hne. by rewrite lookup_insert_ne.
Qed.

Lemma addDefectiveItem_frame_witness :
  shipments MoreSamples.after_defect = shipments Samples.shop
  ∧ dom (products MoreSamples.after_defect) = dom (products Samples.shop)
  ∧ (∀ id, id ≠ "p1" →
           products MoreSamples.after_defect !! id
           = products Samples.shop !! id)
  ∧ (∀ id, id ≠ "d1" →
           defects MoreSamples.after_defect !! id
           = defects Samples.shop !! id).
Proof.
  apply (addDefectiveItem_frame Samples.shop
           (Samples.defect_of "d1" "M" 3) MoreSamples.after_defect
           (Success ())).
  vm_compute. reflexivity.
Defined.



(** ** Invoices *)

Lemma apply_all_updates_frame ms st st1 :
  Forall (λ m, ∃ id path v, m = UpdateProduct id path v) ms →
  apply_all st ms = Some st1 →
  shipments st1 = shipments st ∧ defects st1 = defects st
  ∧ dom (products st1) = dom (products st)
  ∧ ∀ id, (∀ path v, UpdateProduct id path v ∉ ms) →
          products st1 !! id = products st !! id.
Proof.
  revert st. induction ms as [|m ms IH]; intros st.
  - intros _ [= <-]. done.
  - intros [(id & path & v & ->) Hms]%Forall_cons. cbn [apply_all].
    destruct (apply_mutation st (UpdateProduct id path v)) as [st0|] eqn:H0;
      [|done].
    cbn [mbind option_bind]. intros H1.
    destruct (IH st0 Hms H1) as (Hs & Hd & Hdom & Hother).
    cbn in H0. destruct v as [z| |]; [|done..].
    destruct (products st !! id) as [p|] eqn:Hp; [|done]. cbn in H0.
    destruct (apply_update path z p) as [p'|]; [|done]. cbn in H0.
    injection H0 as <-. cbn [products defects shipments] in *.
    split; [done|]. split; [done|]. split.
    + rewrite Hdom, dom_insert_L. apply elem_of_dom_2 in Hp. set_solver.
    + intros id' Hn. rewrite Hother.
      * apply lookup_insert_ne. intros ->.
        apply (Hn path (JInt z)). by left.
      * intros path' v' Hin. apply (Hn path' v'). by right.
Qed.

(** A successful invoice adds its shipment and nothing else to the
    shipments; its stock updates address the products of its items. *)
Lemma saveNewInvoice_committed now st inv st' id :
  saveNewInvoice now st inv = Some (st', Success id) →
  id = shipmentId (Invoice.date inv) now
  ∧ shipments st'
    = <[id := Shipment.mk id (Invoice.supplierId inv) (Invoice.date inv)
                (Invoice.shippingCost inv)
                (invoice_lines st (Invoice.items inv))
                (cost (invoice_lines st (Invoice.items inv)))]>
        (shipments st)
  ∧ defects st' = defects st
  ∧ dom (products st') = dom (products st)
  ∧ ∀ pid, (∀ item, item ∈ Invoice.items inv → Item.productId item ≠ pid) →
           products st' !! pid = products st !! pid.
Proof.
  intros [[_ [e [=]]]|(acc & t & [= ->] & Hloop & Hc)]%saveNewInvoice_inv.
  apply for_of_items_ok in Hloop as [_ (_ & -> & ms & Hms & HP)].
  unfold begin in *. cbn [snapshot mutations fst snd app] in *. subst ms.
  unfold commit in Hc. destruct (check_updates _ _); [done|].
  destruct (apply_all st _) as [st1|] eqn:Happ; [|done].
  injection Hc as ->. rewrite apply_all_app in Happ.
  destruct (apply_all st (mutations t)) as [st0|] eqn:H0; [|done].
  cbn in Happ. injection Happ as <-. cbn [products defects shipments].
  assert (Hupd : Forall (λ m, ∃ id path v, m = UpdateProduct id path v)
                   (mutations t)).
  { eapply Forall_impl; [exact HP|]. cbn.
    intros m (item & pd & _ & _ & path & c & s & q & _ & _ & ->). eauto. }
  destruct (apply_all_updates_frame _ _ _ Hupd H0) as (Hs & Hd & Hdom & Ho).
  split; [done|]. split; [|split; [done|split; [done|]]].
  - rewrite Hs. reflexivity.
  - intros pid Hn. apply Ho. intros path v Hin.
    rewrite Forall_forall in HP.
    destruct (HP _ Hin)
      as (item & pd & Hitem & _ & path' & c & s & q & _ & _ & [= Hpid _ _]).
    by apply (Hn item).
Qed.



(** [X5] Whatever it returns, saveNewInvoice leaves the defect records as
    they were, neither creates nor deletes a product (not even for an item
    flagged new), changes no product that no item names, and touches no
    shipment but the one under its own identifier. *)
Theorem saveNewInvoice_frame now st inv st' r :
  saveNewInvoice now st inv = Some (st', r) →
  defects st' = defects st
  ∧ dom (products st') = dom (products st)
  ∧ (∀ pid,
       (∀ item, item ∈ Invoice.items inv → Item.productId item ≠ pid) →
       products st' !! pid = products st !! pid)
  ∧ (∀ sid, sid ≠ shipmentId (Invoice.date inv) now →
            shipments st' !! sid = shipments st !! sid).
Proof.
  intros H. destruct r as [id|e].
  - apply saveNewInvoice_committed in H as (-> & Hs & Hd & Hdom & Ho).
    split; [done|]. split; [done|]. split; [done|].
    intros sid Hne. rewrite Hs. by apply lookup_insert_ne.
  - apply saveNewInvoice_inv in H as [[-> _]|(? & ? & [=] & _)]. done.
Qed.

Lemma saveNewInvoice_frame_witness :
  defects Samples.restocked = defects Samples.shop
  ∧ dom (products Samples.restocked) = dom (products Samples.shop)
  ∧ (∀ pid,
       (∀ item, item ∈ [Samples.restock] → Item.productId item ≠ pid) →
       products Samples.restocked !! pid = products Samples.shop !! pid)
  ∧ (∀ sid, sid ≠ shipmentId "2024-03-01" 1709290123456%N →
            shipments Samples.restocked !! sid
            = shipments Samples.shop !! sid).
Proof.
  apply (saveNewInvoice_frame 1709290123456%N Samples.shop
           (Samples.invoice_of [Samples.restock]) Samples.restocked
           (Success "SH20240301-23456")).
  vm_compute. reflexivity.
Defined.

(** ** Shipment identifiers *)

Lemma substring_0_length s : String.substring 0 (String.length s) s = s.
Proof. induction s as [|c s IH]; simpl; [done|]. by rewrite IH. Qed.

Lemma length_append p s :
  String.length (p +:+ s) = (String.length p + String.length s)%nat.
Proof. induction p as [|c p IH]; simpl; [done|]. by rewrite IH. Qed.

Lemma slice_end_app p s :
  slice_end (String.length s) (p +:+ s) = s.
Proof.
  unfold slice_end. rewrite length_append.
  replace (String.length p + String.length s - String.length s)%nat
    with (String.length p) by lia.
  induction p as [|c p IH]; simpl; [apply substring_0_length|exact IH].
Qed.

Lemma pretty_N_go_app x s : ∃ p, pretty_N_go x s = p +:+ s.
Proof.
  revert s. induction (N.lt_wf_0 x) as [x _ IH]; intros s.
  destruct (decide (x = 0)%N) as [->|Hx].
  - exists "". by rewrite pretty_N_go_0.
  - rewrite pretty_N_go_step by lia.
    set (c := pretty_N_char (N.modulo x 10)).
    destruct (IH (N.div x 10) ltac:(apply N.div_lt; lia) (String c s))
      as [p Hp].
    rewrite Hp. exists (p +:+ String c ""). clear.
    induction p as [|a p IHp]; [done|].
    change (String a (p +:+ String c s)
            = String a ((p +:+ String c "") +:+ s)).
    by rewrite <- IHp.
Qed.

Lemma slice_end_pretty n :
  (10000 ≤ n)%N → slice_end 5 (pretty n) = last5 n.
Proof.
  intros Hn. unfold pretty, pretty_N.
  destruct (decide (n = 0)%N) as [->|_]; [lia|].
  assert (H1 : (0 < N.div n 10)%N) by (apply N.div_str_pos; lia).
  assert (H2 : (0 < N.div (N.div n 10) 10)%N).
  { rewrite N.Div0.div_div. apply N.div_str_pos. lia. }
  assert (H3 : (0 < N.div (N.div (N.div n 10) 10) 10)%N).
  { rewrite !N.Div0.div_div. apply N.div_str_pos. lia. }
  assert (H4 : (0 < N.div (N.div (N.div (N.div n 10) 10) 10) 10)%N).
  { rewrite !N.Div0.div_div. apply N.div_str_pos. lia. }
  rewrite (pretty_N_go_step n) by lia.
  rewrite (pretty_N_go_step (N.div n 10)) by done.
  rewrite (pretty_N_go_step (N.div (N.div n 10) 10)) by done.
  rewrite (pretty_N_go_step (N.div (N.div (N.div n 10) 10) 10)) by done.
  rewrite (pretty_N_go_step (N.div (N.div (N.div (N.div n 10) 10) 10) 10)) by done.
  match goal with
  | |- slice_end 5 (pretty_N_go ?y ?s) = _ =>
      destruct (pretty_N_go_app y s) as [p Hp]; rewrite Hp;
      transitivity s; [exact (slice_end_app p s)|]
  end.
  unfold last5. by rewrite !N.Div0.div_div.
Qed.

Lemma last5_period n : last5 (n + 100000) = last5 n.
Proof.
  unfold last5.
  assert (H : ∀ d r, (d * r = 100000)%N → (r `mod` 10 = 0)%N → (d ≠ 0)%N →
            (N.modulo (N.div (n + 100000) d) 10
             = N.modulo (N.div n d) 10)).
  { intros d r Hd Hr Hd0. rewrite <- Hd, (N.mul_comm d r).
    rewrite N.div_add by done.
    rewrite <- (N.Div0.add_mod_idemp_r _ r), Hr, N.add_0_r. done. }
  rewrite (H 10000 10)%N, (H 1000 100)%N, (H 100 1000)%N, (H 10 10000)%N
    by done.
  f_equal; f_equal; f_equal; f_equal; f_equal.
  f_equal. replace 100000%N with (10000 * 10)%N by done.
  apply N.Div0.mod_add.
Qed.

Lemma shipmentId_period_aux date now :
  (10000 ≤ now)%N →
  shipmentId date (now + 100000) = shipmentId date now.
Proof.
  intros Hn. unfold shipmentId.
  rewrite !slice_end_pretty by lia. by rewrite last5_period.
Qed.

(** [X6] The identifier of a shipment is the date without its dashes and
    the last five digits of the clock: an invoice of the same date one
    hundred seconds later gets the same identifier. *)
Theorem shipmentId_period date now :
  (10000 ≤ now)%N →
  shipmentId date (now + 100000) = shipmentId date now
  ∧ shipmentId date now
    = "SH" +:+ remove_dashes date +:+ "-" +:+ last5 now.
Proof.
  intros Hn. split; [by apply shipmentId_period_aux|].
  unfold shipmentId. by rewrite slice_end_pretty.
Qed.

Lemma shipmentId_period_witness :
  shipmentId "2024-03-01" (1709290123456 + 100000)
  = shipmentId "2024-03-01" 1709290123456
  ∧ shipmentId "2024-03-01" 1709290123456
    = "SH" +:+ remove_dashes "2024-03-01" +:+ "-" +:+ last5 1709290123456.
Proof. apply (shipmentId_period "2024-03-01" 1709290123456). lia. Defined.

(** [X7] Two invoices of the same date that both succeed, the second one
    hundred seconds after the first: the second is stored under the
    identifier of the first and replaces its shipment record, while the
    stock added by the first stays.  No shipment record is added. *)
Theorem saveNewInvoice_overwrites now st inv1 inv2 st1 st2 id1 id2 :
  (10000 ≤ now)%N →
  Invoice.date inv2 = Invoice.date inv1 →
  saveNewInvoice now st inv1 = Some (st1, Success id1) →
  saveNewInvoice (now + 100000) st1 inv2 = Some (st2, Success id2) →
  id2 = id1
  ∧ dom (shipments st2) = dom (shipments st1)
  ∧ ∃ shipment,
      shipments st2 !! id1 = Some shipment
      ∧ Shipment.items shipment = invoice_lines st1 (Invoice.items inv2).
Proof.
  intros Hn Hdate H1 H2.
  apply saveNewInvoice_committed in H1 as (-> & Hs1 & _).
  apply saveNewInvoice_committed in H2 as (-> & Hs2 & _).
  rewrite Hdate, shipmentId_period_aux in * by done.
  split; [done|]. split.
  - rewrite Hs2, Hs1, !dom_insert_L. set_solver.
  - eexists. split; [rewrite Hs2; apply lookup_insert_eq|done].
Qed.

Lemma saveNewInvoice_overwrites_witness :
  "SH20240301-23456" = "SH20240301-23456"
  ∧ dom (shipments MoreSamples.restocked_again)
    = dom (shipments Samples.restocked)
  ∧ ∃ shipment,
      shipments MoreSamples.restocked_again !! "SH20240301-23456"
      = Some shipment
      ∧ Shipment.items shipment
        = invoice_lines Samples.restocked [Samples.restock].
Proof.
  apply (saveNewInvoice_overwrites 1709290123456%N Samples.shop
           (Samples.invoice_of [Samples.restock])
           (Samples.invoice_of [Samples.restock])
           Samples.restocked MoreSamples.restocked_again
           "SH20240301-23456" "SH20240301-23456").
  - lia.
  - reflexivity.
  - vm_compute. reflexivity.
  - vm_compute. reflexivity.
Defined.

End LedgerMore.

(** * Further facts about closing a shift *)
Module ShiftMore.
Import Shift.

(** [X8] Whatever the store answers, saveShift reports success only when
    the shift is stored and the marker lastShiftReportTime is the end of
    the shift; when it reports a failure the marker is what it was; and in
    no case is another shift touched. *)
Theorem saveShift_outcome shiftData w r w' :
  saveShift shiftData w = (r, w') →
  (r = Success →
   shifts (durable w') !! ShiftData.id shiftData = Some shiftData
   ∧ lastShiftReportTime (durable w') = Some (ShiftData.endedAt shiftData))
  ∧ (∀ message, r = Failure message →
       lastShiftReportTime (durable w') = lastShiftReportTime (durable w))
  ∧ (∀ id, id ≠ ShiftData.id shiftData →
       shifts (durable w') !! id = shifts (durable w) !! id).
Proof.
  destruct w as [st ans].
  unfold saveShift, try_catch, mbind, io_bind, setDoc. cbn [answers durable].
  destruct ans as [|[|m1] [|[|m2] rest]]; intros [= <- <-];
    cbn [durable set_shift merge_lastShiftReportTime shifts
         lastShiftReportTime];
    repeat split; intros; try done;
    try (by rewrite lookup_insert_ne); try apply lookup_insert_eq.
Qed.

Lemma saveShift_outcome_witness :
  let shiftData :=
    ShiftData.mk "shift-2" "2024-03-01T18:00" "2024-03-02T02:00" "sam" 40 35 in
  let before := mkStore ∅ (Some "2024-03-01T18:00") in
  let after :=
    mkStore {[ "shift-2" := shiftData ]} (Some "2024-03-02T02:00") in
  (Success = Success →
   shifts after !! "shift-2" = Some shiftData
   ∧ lastShiftReportTime after = Some "2024-03-02T02:00")
  ∧ (∀ message, Success = Failure message →
       lastShiftReportTime after = lastShiftReportTime before)
  ∧ (∀ id, id ≠ "shift-2" → shifts after !! id = shifts before !! id).
Proof.
  intros shiftData before after.
  apply (saveShift_outcome shiftData (mkWorld before [Acked; Acked])
           Success (mkWorld after [])).
  reflexivity.
Defined.

End ShiftMore.

(** * Further facts about saving the working set *)
Module SyncMore.
Import Sync SyncFacts Daily.

Lemma synced_Some entries collName collData :
  synced collName entries = Some collData →
  (collName, Some collData) ∈ entries.
Proof.
  induction entries as [|[name c] entries IH]; [done|]. cbn [synced].
  destruct (decide (name = collName)) as [->|].
  - intros ->. by left.
  - intros H. right. by apply IH.
Qed.

(** [X9] saveData leaves alone every document of a collection that is
    not one of its ten or whose value in the working set is undefined. *)
Theorem saveData_untouched s st collName :
  (∀ collData, (collName, Some collData) ∉ collections s) →
  ∀ i, docs (saveData s st) !! (collName, i) = docs st !! (collName, i).
Proof.
  intros Hn i. rewrite saveData_docs. cbn [fst snd].
  destruct (synced collName (collections s)) as [collData|] eqn:Hs; [|done].
  apply synced_Some in Hs. by destruct (Hn collData).
Qed.

Lemma saveData_untouched_witness :
  docs (saveData SyncSamples.working_set DeskSamples.annotated)
    !! ("daily_expenses", "e1")
  = docs DeskSamples.annotated !! ("daily_expenses", "e1").
Proof.
  apply (saveData_untouched SyncSamples.working_set DeskSamples.annotated
           "daily_expenses").
  intros collData H. vm_compute in H.
  repeat (apply elem_of_cons in H as [H|H]; [discriminate H|]).
  by inversion H.
Defined.

Lemma config_data_other s k :
  k ∉ ["categories"; "salaries"; "salariesPaidStatus"; "expenses";
       "lastShiftReportTime"] →
  config_data s !! k = None.
Proof.
  intros Hk. unfold config_data.
  rewrite !lookup_insert_ne, lookup_singleton_ne; [done|..];
    intros <-; apply Hk; set_solver.
Qed.

(** The fields of the configuration that saveData does not write are
    kept. *)
Lemma saveData_config_other s st k :
  k ∉ ["categories"; "salaries"; "salariesPaidStatus"; "expenses";
       "lastShiftReportTime"] →
  config (saveData s st) ≫= (.!! k) = config st ≫= (.!! k).
Proof.
  intros Hk. rewrite saveData_config. cbn [mbind option_bind].
  unfold set_merge. rewrite lookup_merge, (config_data_other s k Hk).
  destruct (config st) as [c|]; cbn; [by destruct (c !! k)|].
  by rewrite lookup_empty.
Qed.

(** [X10] saveData does not change which password validateAdminPassword
    accepts. *)
Theorem saveData_keeps_password s st password :
  validateAdminPassword password (saveData s st)
  = validateAdminPassword password st.
Proof.
  unfold validateAdminPassword.
  pose proof (saveData_config_other s st "adminPassword") as H.
  rewrite saveData_config in *. cbn [mbind option_bind] in H.
  rewrite H.
  - by destruct (config st) as [c|].
  - intros Hin. repeat (apply elem_of_cons in Hin as [Hin|Hin]; [done|]).
    by inversion Hin.
Qed.

Lemma saveData_salaries s st :
  ∃ c, config (saveData s st) = Some c
       ∧ c !! "salaries"
         = Some (merge_tree (salaries s)
                   (default (Node ∅) (default ∅ (config st) !! "salaries"))).
Proof.
  eexists. split; [apply saveData_config|].
  unfold set_merge. rewrite lookup_merge.
  assert (config_data s !! "salaries" = Some (salaries s)) as ->; [|done].
  unfold config_data. rewrite lookup_insert_ne by done.
  apply lookup_insert_eq.
Qed.

(** [X11] A salary entry that the store holds and that is no longer in
    the in-memory salaries survives saveData, as long as the in-memory
    salaries are not empty: the entries are merged, not replaced. *)
Theorem saveData_keeps_stale_salary s st c old new username entry :
  config st = Some c →
  c !! "salaries" = Some (Node old) →
  old !! username = Some entry →
  salaries s = Node new →
  new ≠ ∅ →
  new !! username = None →
  ∃ c' merged,
    config (saveData s st) = Some c'
    ∧ c' !! "salaries" = Some (Node merged)
    ∧ merged !! username = Some entry.
Proof.
  intros Hc Hsal Hold Hnew Hne Hnone.
  destruct (saveData_salaries s st) as (c' & Hc' & Hs).
  rewrite Hc in Hs. change (default ∅ (Some c)) with c in Hs.
  rewrite Hsal, Hnew in Hs.
  change (default (Node ∅) (Some (Node old))) with (Node old) in Hs.
  cbn [merge_tree] in Hs.
  destruct (decide (size new = 0%nat)) as [H0|_].
  { by apply map_size_empty_iff in H0. }
  eexists c', _. split; [done|]. split; [exact Hs|].
  cbn [children]. rewrite lookup_merge, lookup_fmap, Hnone, Hold. done.
Qed.

Lemma saveData_keeps_stale_salary_witness :
  ∃ c' merged,
    config (saveData DeskSamples.sam_only DeskSamples.office) = Some c'
    ∧ c' !! "salaries" = Some (Node merged)
    ∧ merged !! "kim" = Some (Node {[ "fixed" := Leaf (SNum 2500) ]}).
Proof.
  eapply (saveData_keeps_stale_salary DeskSamples.sam_only DeskSamples.office
            _ _ _ "kim").
  - reflexivity.
  - vm_compute. reflexivity.
  - vm_compute. reflexivity.
  - reflexivity.
  - intros H. apply (f_equal (λ m, m !! "sam")) in H. vm_compute in H.
    discriminate H.
  - vm_compute. reflexivity.
Defined.

(** [X12] When the in-memory salaries are the empty object, saveData
    replaces the stored salaries by the empty object: every entry is
    gone. *)
Theorem saveData_empties_salaries s st :
  salaries s = Node ∅ →
  ∃ c', config (saveData s st) = Some c'
        ∧ c' !! "salaries" = Some (Node ∅).
Proof.
  intros Hnew. destruct (saveData_salaries s st) as (c' & Hc' & Hs).
  exists c'. split; [done|]. rewrite Hs, Hnew. done.
Qed.

Lemma saveData_empties_salaries_witness :
  ∃ c', config (saveData DeskSamples.nobody DeskSamples.office) = Some c'
        ∧ c' !! "salaries" = Some (Node ∅).
Proof.
  apply (saveData_empties_salaries DeskSamples.nobody DeskSamples.office).
  reflexivity.
Defined.

End SyncMore.

(** * The daily expenses *)
Module DailyFacts.
Import Sync SyncFacts Daily.

Lemma doc_valid collName i :
  i ≠ "" → doc collName (Some i) = Some (collName, i).
Proof. intros Hi. unfold doc. by rewrite decide_False. Qed.

Lemma parse_properties e :
  parse_update (properties e)
  = inr [ (["amount"], Leaf (SNum (Expense.amount e)));
          (["date"], Leaf (SStr (Expense.date e)));
          (["notes"], Leaf (SStr (Expense.notes e))) ].
Proof. reflexivity. Qed.

Lemma write_properties e f :
  write_fields [ (["amount"], Leaf (SNum (Expense.amount e)));
                 (["date"], Leaf (SStr (Expense.date e)));
                 (["notes"], Leaf (SStr (Expense.notes e))) ] f
  = <["notes" := Leaf (SStr (Expense.notes e))]>
      (<["date" := Leaf (SStr (Expense.date e))]>
         (<["amount" := Leaf (SNum (Expense.amount e))]> f)).
Proof. reflexivity. Qed.

(** What updateDailyExpense does to a document that exists. *)
Lemma updateDailyExpense_found e st i old :
  Expense.id e = Some i → i ≠ "" →
  docs st !! ("daily_expenses", i) = Some old →
  updateDailyExpense e st
  = (mkStore
       (<[("daily_expenses", i) :=
            mkItem (id old)
              (<["notes" := Leaf (SStr (Expense.notes e))]>
                 (<["date" := Leaf (SStr (Expense.date e))]>
                    (<["amount" := Leaf (SNum (Expense.amount e))]>
                       (fields old))))]>
          (docs st))
       (config st),
     Success).
Proof.
  intros Hid Hi Hold. unfold updateDailyExpense.
  rewrite Hid, (doc_valid _ _ Hi), parse_properties, Hold, write_properties.
  done.
Qed.




(** [X14] On a document that exists, updateDailyExpense succeeds, sets
    the three properties of the expense, and keeps the identifier
    property and every other field that the document holds. *)
Theorem updateDailyExpense_keeps e st i old :
  Expense.id e = Some i → i ≠ "" →
  docs st !! ("daily_expenses", i) = Some old →
  ∃ new,
    updateDailyExpense e st
    = (mkStore (<[("daily_expenses", i) := new]> (docs st)) (config st),
       Success)
    ∧ id new = id old
    ∧ fields new !! "amount" = Some (Leaf (SNum (Expense.amount e)))
    ∧ fields new !! "date" = Some (Leaf (SStr (Expense.date e)))
    ∧ fields new !! "notes" = Some (Leaf (SStr (Expense.notes e)))
    ∧ ∀ k, k ∉ ["amount"; "date"; "notes"] →
           fields new !! k = fields old !! k.
Proof.
  intros Hid Hi Hold. eexists.
  split; [by apply updateDailyExpense_found|]. cbn [id fields].
  repeat split; [by simplify_map_eq..|].
  intros k Hk.
  rewrite !lookup_insert_ne; [done|..]; intros <-; apply Hk; set_solver.
Qed.

Lemma updateDailyExpense_keeps_witness :
  ∃ new,
    updateDailyExpense DeskSamples.taxi_fixed DeskSamples.annotated
    = (mkStore (<[("daily_expenses", "e1") := new]>
                  (docs DeskSamples.annotated))
               (config DeskSamples.annotated),
       Success)
    ∧ id new = id DeskSamples.approved
    ∧ fields new !! "amount"
      = Some (Leaf (SNum (Expense.amount DeskSamples.taxi_fixed)))
    ∧ fields new !! "date"
      = Some (Leaf (SStr (Expense.date DeskSamples.taxi_fixed)))
    ∧ fields new !! "notes"
      = Some (Leaf (SStr (Expense.notes DeskSamples.taxi_fixed)))
    ∧ ∀ k, k ∉ ["amount"; "date"; "notes"] →
           fields new !! k = fields DeskSamples.approved !! k.
Proof.
  apply (updateDailyExpense_keeps DeskSamples.taxi_fixed DeskSamples.annotated
           "e1" DeskSamples.approved);
    [reflexivity|done|vm_compute; reflexivity].
Defined.

(** [X15] updateDailyExpense never creates and never removes a document,
    whatever its answer, and leaves the configuration alone. *)
Theorem updateDailyExpense_same_documents e st :
  dom (docs (updateDailyExpense e st).1) = dom (docs st)
  ∧ config (updateDailyExpense e st).1 = config st.
Proof.
  unfold updateDailyExpense.
  destruct (doc "daily_expenses" (Expense.id e)) as [docRef|]; [|done].
  destruct (parse_update (properties e)); [done|].
  destruct (docs st !! docRef) as [old|] eqn:Hold; [|done].
  cbn [fst docs config]. split; [|done].
  by apply dom_insert_lookup_L.
Qed.



(** [X17] Deleting twice is the same as deleting once: the second
    request succeeds as the first did and changes nothing. *)
Theorem deleteDailyExpense_twice expenseId st :
  deleteDailyExpense expenseId (deleteDailyExpense expenseId st).1
  = deleteDailyExpense expenseId st.
Proof.
  unfold deleteDailyExpense.
  destruct (doc "daily_expenses" expenseId) as [docRef|]; [|done].
  cbn [fst docs config]. f_equal. f_equal.
  apply delete_id, lookup_delete_eq.
Qed.






(** [X20] The three requests on daily expenses change no document of
    another collection and never the configuration. *)
Theorem daily_expenses_frame e st collName i :
  collName ≠ "daily_expenses" →
  (docs (saveDailyExpense e st).1 !! (collName, i) = docs st !! (collName, i)
   ∧ config (saveDailyExpense e st).1 = config st)
  ∧ (docs (updateDailyExpense e st).1 !! (collName, i)
     = docs st !! (collName, i)
     ∧ config (updateDailyExpense e st).1 = config st)
  ∧ (docs (deleteDailyExpense (Expense.id e) st).1 !! (collName, i)
     = docs st !! (collName, i)
     ∧ config (deleteDailyExpense (Expense.id e) st).1 = config st).
Proof.
  intros Hne.
  unfold saveDailyExpense, updateDailyExpense, deleteDailyExpense, doc.
  destruct (Expense.id e) as [j|]; [|done].
  destruct (decide (j = "")); [done|].
  destruct (parse_update (properties e)),
    (docs st !! ("daily_expenses", j)); cbn [fst docs config];
    repeat split;
    try (rewrite lookup_insert_ne by congruence);
    try (rewrite lookup_delete_ne by congruence); done.
Qed.

Lemma daily_expenses_frame_witness :
  docs (saveDailyExpense DeskSamples.taxi SyncSamples.cloud).1
    !! ("products", "p1")
  = docs SyncSamples.cloud !! ("products", "p1").
Proof.
  apply (daily_expenses_frame DeskSamples.taxi SyncSamples.cloud
           "products" "p1").
  done.
Defined.

End DailyFacts.

(** * Loading the working set *)
Module LoadFacts.
Import Sync SyncFacts Daily DailyFacts Load.

Lemma by_id_transitive :
  Transitive (λ a b : string * item, String.le a.1 b.1).
Proof. intros a b c Hab Hbc. by etrans. Qed.

Lemma by_id_total : Total (λ a b : string * item, String.le a.1 b.1).
Proof. intros a b. apply (total String.le). Qed.

Lemma elem_of_collection_docs collName st i it :
  (i, it) ∈ collection_docs collName st
  ↔ docs st !! (collName, i) = Some it.
Proof.
  unfold collection_docs. rewrite merge_sort_Permutation, list_elem_of_omap.
  split.
  - intros ([[c j] x] & Hin & Hf). cbn in Hf.
    destruct (decide (c = collName)) as [->|]; [|done].
    injection Hf as -> ->. by apply elem_of_map_to_list in Hin.
  - intros H. exists ((collName, i), it).
    split; [by apply elem_of_map_to_list|]. cbn. by rewrite decide_True.
Qed.

Lemma NoDup_omap_inj {A B} (f : A → option B) (l : list A) :
  (∀ x y z, f x = Some z → f y = Some z → x = y) →
  NoDup l → NoDup (omap f l).
Proof.
  intros Hinj. induction 1 as [|x l Hx Hnd IH]; cbn; [constructor|].
  destruct (f x) as [z|] eqn:Hfx; [|done].
  constructor; [|done]. rewrite list_elem_of_omap.
  intros (y & Hy & Hfy). by rewrite (Hinj x y z) in Hx.
Qed.

Lemma NoDup_collection_docs collName st :
  NoDup (collection_docs collName st).*1.
Proof.
  apply NoDup_fmap_fst.
  - intros i it1 it2 H1 H2.
    apply elem_of_collection_docs in H1, H2. congruence.
  - unfold collection_docs. rewrite merge_sort_Permutation.
    apply NoDup_omap_inj; [|apply NoDup_map_to_list].
    intros [[c1 i1] x1] [[c2 i2] x2] z. cbn.
    destruct (decide (c1 = collName)), (decide (c2 = collName)); try done.
    congruence.
Qed.

Lemma collection_docs_sorted collName st :
  StronglySorted (λ a b : string * item, String.le a.1 b.1)
    (collection_docs collName st).
Proof.
  pose proof by_id_transitive. pose proof by_id_total.
  unfold collection_docs. by apply StronglySorted_merge_sort.
Qed.

Lemma StronglySorted_fmap_in {A B} (R1 : relation A) (R2 : relation B)
    (f : A → B) (l : list A) :
  (∀ x y, x ∈ l → y ∈ l → R1 x y → R2 (f x) (f y)) →
  StronglySorted R1 l → StronglySorted R2 (f <$> l).
Proof.
  intros Hf Hs. induction Hs as [|x l Hs IH Hall]; cbn; constructor.
  - apply IH. intros y z Hy Hz. apply Hf; by right.
  - apply Forall_fmap, Forall_forall. intros y Hy.
    rewrite Forall_forall in Hall.
    apply Hf; [by left|by right|by apply Hall].
Qed.

Lemma with_id_stored i it :
  truthy_id it = Some i → with_id (i, it) = it.
Proof.
  unfold truthy_id, with_id. destruct it as [[j|] f]; cbn; [|done].
  destruct (decide (j = "")); [done|]. by intros [= ->].
Qed.

Lemma unique_truthy_id (l : list item) x y i :
  NoDup (omap truthy_id l) → x ∈ l → y ∈ l →
  truthy_id x = Some i → truthy_id y = Some i → x = y.
Proof.
  induction l as [|z l IH]; intros Hnd Hx Hy Hix Hiy; [by inversion Hx|].
  cbn in Hnd.
  assert (∀ w, w ∈ l → truthy_id w = Some i → i ∈ omap truthy_id l) as Hmem.
  { intros w Hw Hiw. apply list_elem_of_omap. by exists w. }
  apply elem_of_cons in Hx as [->|Hx], Hy as [->|Hy]; [done|..].
  - rewrite Hix in Hnd. apply NoDup_cons in Hnd as [Hn _].
    destruct Hn. by apply (Hmem y).
  - rewrite Hiy in Hnd. apply NoDup_cons in Hnd as [Hn _].
    destruct Hn. by apply (Hmem x).
  - apply IH; try done.
    destruct (truthy_id z); [by apply NoDup_cons in Hnd as [_ ?]|done].
Qed.

Lemma NoDup_with_truthy_id (l : list item) :
  NoDup (omap truthy_id l) →
  NoDup (filter (λ it, is_Some (truthy_id it)) l).
Proof.
  induction l as [|z l IH]; intros Hnd; [constructor|].
  rewrite filter_cons. cbn in Hnd. destruct (truthy_id z) as [i|] eqn:Hz.
  - apply NoDup_cons in Hnd as [Hn Hnd].
    rewrite decide_True by (by eexists). constructor; [|by apply IH].
    intros Hin. apply list_elem_of_filter in Hin as [_ Hin].
    apply Hn, list_elem_of_omap. by exists z.
  - rewrite decide_False by (by intros [? ?]). by apply IH.
Qed.

(** The documents of a synced collection after saveData, when no two
    incoming records share an identifier. *)
Lemma saveData_collection_docs s st collName collData i it :
  (collName, Some collData) ∈ collections s →
  NoDup (omap truthy_id collData) →
  (i, it) ∈ collection_docs collName (saveData s st)
  ↔ it ∈ collData ∧ truthy_id it = Some i.
Proof.
  intros Hin Hnd. rewrite elem_of_collection_docs, saveData_docs.
  cbn [fst snd].
  rewrite (synced_elem _ _ _ (collections_NoDup s) Hin).
  split; [apply last_with_id_Some|]. intros [Hit Hid].
  destruct (last_with_id i collData) as [it'|] eqn:Hl.
  - apply last_with_id_Some in Hl as [Hit' Hid'].
    f_equal. by apply (unique_truthy_id collData it' it i).
  - apply last_with_id_None in Hl. destruct Hl.
    apply elem_of_list_to_set, list_elem_of_omap. by exists it.
Qed.

(** [X21] Loading after saving gives back, for each collection of the
    working set that is defined and whose records carry distinct
    identifiers, the records that carry an identifier, ordered by
    identifier. *)
Theorem load_after_saveData s st collName collData :
  (collName, Some collData) ∈ collections s →
  NoDup (omap truthy_id collData) →
  load_collection collName (saveData s st)
    ≡ₚ filter (λ it, is_Some (truthy_id it)) collData
  ∧ StronglySorted
      (λ a b : item, ∃ i j, id a = Some i ∧ id b = Some j ∧ String.le i j)
      (load_collection collName (saveData s st)).
Proof.
  intros Hin Hnd.
  pose proof (saveData_collection_docs s st collName collData) as Hdocs.
  assert (∀ e, e ∈ collection_docs collName (saveData s st) →
               with_id e = e.2 ∧ id e.2 = Some e.1) as Hstored.
  { intros [i it] He. apply Hdocs in He as [_ Hid]; [|done..].
    split; [by apply with_id_stored|]. cbn. unfold truthy_id in Hid.
    destruct (id it) as [j|]; [|done].
    destruct (decide (j = "")); congruence. }
  split.
  - apply NoDup_Permutation.
    + apply NoDup_fmap_2_strong.
      * intros a b Ha Hb Hab.
        destruct (Hstored a Ha) as [Hwa Hia], (Hstored b Hb) as [Hwb Hib].
        rewrite Hwa, Hwb in Hab. destruct a as [i x], b as [j y]. cbn in *.
        subst y. congruence.
      * eapply NoDup_fmap_1, NoDup_collection_docs.
    + by apply NoDup_with_truthy_id.
    + intros it. unfold load_collection.
      rewrite list_elem_of_fmap, list_elem_of_filter. split.
      * intros ([i x] & -> & He). destruct (Hstored _ He) as [-> _]. cbn.
        apply Hdocs in He as [Hx Hid]; [|done..]. by rewrite Hid.
      * intros [[i Hid] Hit]. exists (i, it).
        split; [by rewrite with_id_stored|]. by apply Hdocs.
  - unfold load_collection.
    apply (StronglySorted_fmap_in
             (λ a b : string * item, String.le a.1 b.1));
      [|apply collection_docs_sorted].
    intros a b Ha Hb Hle.
    destruct (Hstored a Ha) as [-> Hia], (Hstored b Hb) as [-> Hib].
    by exists a.1, b.1.
Qed.

Lemma load_after_saveData_witness :
  load_collection "products"
    (saveData SyncSamples.working_set SyncSamples.cloud)
    ≡ₚ filter (λ it, is_Some (truthy_id it))
         [SyncSamples.record "1"; mkItem None ∅; SyncSamples.record "2"]
  ∧ StronglySorted
      (λ a b : item, ∃ i j, id a = Some i ∧ id b = Some j ∧ String.le i j)
      (load_collection "products"
         (saveData SyncSamples.working_set SyncSamples.cloud)).
Proof.
  apply (load_after_saveData SyncSamples.working_set SyncSamples.cloud
           "products"
           [SyncSamples.record "1"; mkItem None ∅; SyncSamples.record "2"]).
  - unfold collections. left.
  - apply (bool_decide_unpack _). by vm_compute.
Defined.

(** [X22] loadData lists every document that a collection holds exactly
    once, with the properties stored, in the order of the document
    identifiers; an [id] property of the document takes precedence over
    the document identifier. *)
Theorem load_collection_listing collName st :
  length (load_collection collName st) = size (existingIds collName st)
  ∧ (∀ it, it ∈ load_collection collName st
           ↔ ∃ i stored, docs st !! (collName, i) = Some stored
                         ∧ it = mkItem (Some (default i (id stored)))
                                  (fields stored))
  ∧ StronglySorted String.le (collection_docs collName st).*1.
Proof.
  split; [|split].
  - unfold load_collection. rewrite length_fmap.
    rewrite <- (length_fmap fst).
    rewrite <- (size_list_to_set (C := gset string))
      by apply NoDup_collection_docs.
    f_equal. apply set_eq. intros i.
    rewrite elem_of_list_to_set, elem_of_existingIds, list_elem_of_fmap.
    split.
    + intros ([j it] & -> & He). apply elem_of_collection_docs in He.
      by exists it.
    + intros [it Hit]. exists (i, it).
      split; [done|]. by apply elem_of_collection_docs.
  - intros it. unfold load_collection. rewrite list_elem_of_fmap. split.
    + intros ([i stored] & -> & He). exists i, stored.
      split; [by apply elem_of_collection_docs|done].
    + intros (i & stored & Hs & ->). exists (i, stored).
      split; [done|]. by apply elem_of_collection_docs.
  - apply (StronglySorted_fmap_in
             (λ a b : string * item, String.le a.1 b.1));
      [done|apply collection_docs_sorted].
Qed.

(** [X23] After saveData, loadData returns as categories the in-memory
    categories without 'All', and as lastShiftReportTime the in-memory
    value. *)
Theorem loadData_after_saveData_config s st :
  Load.categories (loadData (saveData s st))
  = Leaf (SArr (SStr <$> savedCategories s))
  ∧ Load.lastShiftReportTime (loadData (saveData s st))
    = Some (Leaf (Sync.lastShiftReportTime s)).
Proof.
  unfold loadData. rewrite saveData_config.
  cbn [Load.categories Load.lastShiftReportTime].
  unfold set_merge. rewrite !lookup_merge.
  assert (config_data s !! "categories"
          = Some (Leaf (SArr (SStr <$> savedCategories s)))) as ->
    by apply lookup_insert_eq.
  assert (config_data s !! "lastShiftReportTime"
          = Some (Leaf (Sync.lastShiftReportTime s))) as ->.
  { unfold config_data. rewrite !lookup_insert_ne by done.
    apply lookup_singleton_eq. }
  done.
Qed.



End LoadFacts.

(** * The figures of the printed invoice and of the salaries sheet *)
Module ReportFacts.
Import Ledger LedgerFacts LedgerMore.

Lemma foldl_add {A} (f : A → Z) (l : list A) (a : Z) :
  foldl (λ sum x, sum + f x) a l = a + foldr Z.add 0 (f <$> l).
Proof.
  revert a. induction l as [|x l IH]; intros a; cbn; [lia|].
  rewrite IH. lia.
Qed.

Lemma grossCost_priced (l : list Shipment.t) :
  Forall (λ s, Shipment.totalCost s = cost (Shipment.items s)) l →
  Print.grossCost l = cost (Print.allItems l).
Proof.
  unfold Print.grossCost, Print.allItems. rewrite foldl_add.
  induction 1 as [|s l Hs Hl IH]; [done|].
  cbn [fmap list_fmap foldr flat_map]. rewrite cost_app, <- Hs. lia.
Qed.

(** [X25] The shipments stay priced: when the totalCost of every stored
    shipment is the cost of its items, the same holds after
    saveNewInvoice and after addDefectiveItem, whatever they return. *)
Theorem shipments_stay_priced st :
  map_Forall (λ _ s, Shipment.totalCost s = cost (Shipment.items s))
    (shipments st) →
  (∀ now inv st' r,
     saveNewInvoice now st inv = Some (st', r) →
     map_Forall (λ _ s, Shipment.totalCost s = cost (Shipment.items s))
       (shipments st'))
  ∧ (∀ d st' r,
       addDefectiveItem st d = Some (st', r) →
       map_Forall (λ _ s, Shipment.totalCost s = cost (Shipment.items s))
         (shipments st')).
Proof.
  intros Hst. split.
  - intros now inv st' [id|e] H.
    + apply saveNewInvoice_committed in H as (_ & -> & _).
      by apply map_Forall_insert_2.
    + by apply saveNewInvoice_inv in H as [[-> _]|(? & ? & [=] & _)].
  - intros d st' r H. by rewrite (addDefectiveItem_shipments _ _ _ _ H).
Qed.

Lemma shipments_stay_priced_witness :
  (∀ now inv st' r,
     saveNewInvoice now Samples.shop inv = Some (st', r) →
     map_Forall (λ _ s, Shipment.totalCost s = cost (Shipment.items s))
       (shipments st'))
  ∧ (∀ d st' r,
       addDefectiveItem Samples.shop d = Some (st', r) →
       map_Forall (λ _ s, Shipment.totalCost s = cost (Shipment.items s))
         (shipments st')).
Proof.
  apply (shipments_stay_priced Samples.shop). apply map_Forall_empty.
Defined.

(** [X26] On shipments that are priced, the gross cost that
    printShipmentInvoice prints is the cost of the lines it lists, and
    the final total is that cost less the value of the defects plus the
    shipping. *)
Theorem printShipmentInvoice_gross shipments defects supplierId date sm :
  Forall (λ s, Shipment.totalCost s = cost (Shipment.items s)) shipments →
  Print.printShipmentInvoice shipments defects supplierId date = Some sm →
  Print.gross sm = cost (Print.lines sm)
  ∧ Print.finalTotal sm
    = cost (Print.lines sm) - Print.deducted sm + Print.shipping sm
  ∧ ∃ s, s ∈ shipments ∧ Shipment.supplierId s = supplierId.
Proof.
  intros Hp. unfold Print.printShipmentInvoice.
  destruct (decide _) as [|Hlen]; [done|]. intros [= <-].
  cbn [Print.gross Print.lines Print.finalTotal Print.deducted Print.shipping].
  assert (Print.grossCost (Print.shipmentsOnDate shipments supplierId date)
          = cost (Print.allItems
                    (Print.shipmentsOnDate shipments supplierId date))) as ->.
  { apply grossCost_priced. unfold Print.shipmentsOnDate.
    apply Forall_forall. intros s [_ Hs]%list_elem_of_filter.
    rewrite Forall_forall in Hp. by apply Hp. }
  split; [done|]. split; [done|].
  destruct (Print.shipmentsOnDate shipments supplierId date) as [|s l] eqn:Hl;
    [done|].
  exists s. assert (s ∈ Print.shipmentsOnDate shipments supplierId date) as Hs
    by (rewrite Hl; left).
  unfold Print.shipmentsOnDate in Hs.
  apply list_elem_of_filter in Hs as [[Hs _] Hin]. done.
Qed.

Lemma printShipmentInvoice_gross_witness :
  let sm :=
    Print.mkSummary [Line.mk "p1" "Runner" "red" "M" 10 50] 500 150 350 7 357
  in
  Print.gross sm = cost (Print.lines sm)
  ∧ Print.finalTotal sm
    = cost (Print.lines sm) - Print.deducted sm + Print.shipping sm
  ∧ ∃ s, s ∈ [Shipment.mk "SH1" "s1" "2024-03-01T09:00" 7
                [Line.mk "p1" "Runner" "red" "M" 10 50] 500]
         ∧ Shipment.supplierId s = "s1".
Proof.
  apply (printShipmentInvoice_gross
           [Shipment.mk "SH1" "s1" "2024-03-01T09:00" 7
              [Line.mk "p1" "Runner" "red" "M" 10 50] 500]
           [Samples.defect_of "d1" "M" 3] "s1" "2024-03-01").
  - repeat constructor.
  - reflexivity.
Defined.

Lemma filter_none {A} (P : A → Prop) `{!∀ x, Decision (P x)} (l : list A) :
  (∀ x, ¬ P x) → filter P l = [].
Proof.
  intros Hn. induction l as [|x l IH]; [done|].
  rewrite filter_cons, decide_False; [done|apply Hn].
Qed.

Lemma pieces_by_cashier (names : list string) (l : list Sale.t) :
  NoDup names →
  foldr Z.add 0
    ((λ u, foldr Z.add 0
             (Salaries.pieces <$> filter (λ sale, Sale.cashier sale = u) l))
       <$> names)
  = foldr Z.add 0
      (Salaries.pieces <$> filter (λ sale, Sale.cashier sale ∈ names) l).
Proof.
  induction 1 as [|u names Hu Hnd IH].
  - rewrite filter_none; [done|]. intros x Hx. by inversion Hx.
  - cbn [fmap list_fmap foldr]. rewrite IH. clear IH.
    induction l as [|x l IHl]; [done|].
    rewrite !filter_cons.
    destruct (decide (Sale.cashier x = u)) as [Hxu|Hxu],
      (decide (Sale.cashier x ∈ names)) as [Hin|Hin],
      (decide (Sale.cashier x ∈ u :: names)) as [Hin'|Hin'];
      cbn [fmap list_fmap foldr]; cbn [fmap list_fmap foldr] in IHl;
      try (exfalso; rewrite Hxu in Hin; done);
      try (exfalso; apply Hin'; set_solver);
      try (exfalso; apply elem_of_cons in Hin' as [?|?]; done);
      lia.
Qed.

(** [X27] When no two users share a username, the pieces sold over the
    rows of the salaries sheet add up to the pieces of the month's sales
    whose cashier is one of the users: every such sale is counted once,
    and a sale of anyone else is not counted. *)
Theorem exportSalariesToExcel_pieces selectedSalariesMonth today sales users
    salaries salariesPaidStatus :
  NoDup (User.username <$> users) →
  foldr Z.add 0
    (Salaries.piecesSold
       <$> Salaries.exportSalariesToExcel selectedSalariesMonth today sales
             users salaries salariesPaidStatus)
  = foldr Z.add 0
      (Salaries.pieces
         <$> filter (λ sale, Sale.cashier sale ∈ User.username <$> users)
               (Salaries.salesThisMonth sales
                  (Salaries.month_of selectedSalariesMonth today))).
Proof.
  intros Hnd. rewrite <- (pieces_by_cashier _ _ Hnd).
  unfold Salaries.exportSalariesToExcel. rewrite <- !list_fmap_compose.
  f_equal. apply list_fmap_ext. intros _ user _. cbn.
  unfold Salaries.piecesSoldBy. rewrite foldl_add. lia.
Qed.

Lemma exportSalariesToExcel_pieces_witness :
  foldr Z.add 0
    (Salaries.piecesSold
       <$> Salaries.exportSalariesToExcel (Some "2024-03") "2024-04-02"
             [Sale.mk "2024-03-05T10:00" "sam"
                [SaleItem.mk 3 (Some 1); SaleItem.mk 2 None];
              Sale.mk "2024-03-06T10:00" "guest" [SaleItem.mk 5 None];
              Sale.mk "2024-02-06T10:00" "sam" [SaleItem.mk 7 None]]
             [User.mk (Some "E1") "sam" None; User.mk None "kim" None]
             ∅ ∅)
  = foldr Z.add 0
      (Salaries.pieces
         <$> filter (λ sale,
                       Sale.cashier sale
                       ∈ User.username
                           <$> [User.mk (Some "E1") "sam" None;
                                User.mk None "kim" None])
               (Salaries.salesThisMonth
                  [Sale.mk "2024-03-05T10:00" "sam"
                     [SaleItem.mk 3 (Some 1); SaleItem.mk 2 None];
                   Sale.mk "2024-03-06T10:00" "guest" [SaleItem.mk 5 None];
                   Sale.mk "2024-02-06T10:00" "sam" [SaleItem.mk 7 None]]
                  (Salaries.month_of (Some "2024-03") "2024-04-02"))).
Proof.
  apply (exportSalariesToExcel_pieces (Some "2024-03") "2024-04-02").
  apply (bool_decide_unpack _). by vm_compute.
Defined.

End ReportFacts.

(** * The receipts kept for the session *)
Module CartFacts.
Import Cart.

Lemma default_seller_idemp r :
  default_seller (default_seller r) = default_seller r.
Proof.
  destruct (r !! "seller") eqn:Hs.
  - assert (default_seller r = r) as H; [|by rewrite !H].
    unfold default_seller. by rewrite Hs.
  - assert (default_seller r = <["seller" := JStr ""]> r) as ->.
    { unfold default_seller. by rewrite Hs. }
    unfold default_seller. by rewrite lookup_insert_eq.
Qed.

Lemma default_seller_is_Some r : is_Some (default_seller r !! "seller").
Proof.
  unfold default_seller. destruct (r !! "seller") eqn:Hs.
  - by rewrite Hs.
  - by rewrite lookup_insert_eq.
Qed.

Lemma default_seller_other r k :
  k ≠ "seller" → default_seller r !! k = r !! k.
Proof.
  intros Hk. unfold default_seller.
  destruct (r !! "seller"); [done|]. by rewrite lookup_insert_ne.
Qed.

Lemma existsb_throws_receipts (l : list (gmap string json)) :
  existsb throws (JObj <$> l) = false.
Proof. induction l as [|r l IH]; [done|exact IH]. Qed.

Lemma mapM_as_receipt (l : list (gmap string json)) :
  mapM as_receipt (JObj <$> l) = Some l.
Proof.
  induction l as [|r l IH]; [done|].
  cbn [fmap list_fmap mapM as_receipt]. cbn [fmap list_fmap] in IH.
  cbn. by rewrite IH.
Qed.

Lemma load_save s :
  load (save s)
  = Some (mkState (default_seller <$> receipts s)
            (first_id (default_seller <$> receipts s))).
Proof.
  unfold load, save. by rewrite existsb_throws_receipts, mapM_as_receipt.
Qed.

Lemma load_inv e s :
  load e = Some s →
  s = reset
  ∨ ∃ rs, s = mkState (default_seller <$> rs)
                (first_id (default_seller <$> rs)).
Proof.
  unfold load. destruct e as [| | |[| | | |l|]]; try (intros [= <-]; by left).
  destruct (existsb throws l); [intros [= <-]; by left|].
  destruct (mapM as_receipt l) as [rs|]; [|done].
  intros [= <-]. right. by exists rs.
Qed.

(** [X28] What load has produced is stable: saving it and loading again
    gives the same receipts and the same active receipt. *)
Theorem cartSession_load_stable e s :
  load e = Some s → load (save s) = Some s.
Proof.
  intros [->|[rs ->]]%load_inv; rewrite load_save; [done|].
  cbn [receipts]. rewrite <- list_fmap_compose.
  assert (default_seller ∘ default_seller <$> rs = default_seller <$> rs)
    as ->; [|done].
  apply list_fmap_ext. intros _ r _. apply default_seller_idemp.
Qed.

Lemma cartSession_load_stable_witness :
  load (save (mkState [ {[ "id" := JNum 7; "seller" := JStr "" ]} ] (JNum 7)))
  = Some (mkState [ {[ "id" := JNum 7; "seller" := JStr "" ]} ] (JNum 7)).
Proof.
  apply (cartSession_load_stable (Parsed (JArr [JObj {[ "id" := JNum 7 ]}]))).
  vm_compute. reflexivity.
Defined.

(** [X29] After load, whatever the storage held, every receipt has a
    seller, and the active receipt is null or the truthy identifier of
    the first receipt. *)
Theorem cartSession_load_invariant e s :
  load e = Some s →
  Forall (λ r, is_Some (r !! "seller")) (receipts s)
  ∧ (activeReceiptId s = JNull
     ∨ ∃ r rest,
         receipts s = r :: rest
         ∧ r !! "id" = Some (activeReceiptId s)
         ∧ truthy (activeReceiptId s) = true).
Proof.
  intros [->|[rs ->]]%load_inv; [split; [constructor|by left]|].
  cbn [receipts activeReceiptId]. split.
  - apply Forall_fmap, Forall_forall. intros r _.
    apply default_seller_is_Some.
  - destruct rs as [|r rs]; [by left|].
    cbn [fmap list_fmap]. unfold first_id, js_or. cbn [head mbind option_bind].
    destruct (default_seller r !! "id") as [v|] eqn:Hid; [|by left].
    destruct (truthy v) eqn:Hv; [|by left].
    right. by eexists _, _.
Qed.

Lemma cartSession_load_invariant_witness :
  Forall (λ r : gmap string json, is_Some (r !! "seller"))
    (receipts (mkState [ {[ "id" := JNum 7; "seller" := JStr "" ]} ] (JNum 7)))
  ∧ (activeReceiptId
       (mkState [ {[ "id" := JNum 7; "seller" := JStr "" ]} ] (JNum 7))
     = JNull
     ∨ ∃ r rest,
         receipts (mkState [ {[ "id" := JNum 7; "seller" := JStr "" ]} ]
                     (JNum 7))
         = r :: rest
         ∧ r !! "id"
           = Some (activeReceiptId
                     (mkState [ {[ "id" := JNum 7; "seller" := JStr "" ]} ]
                        (JNum 7)))
         ∧ truthy
             (activeReceiptId
                (mkState [ {[ "id" := JNum 7; "seller" := JStr "" ]} ]
                   (JNum 7)))
           = true).
Proof.
  apply (cartSession_load_invariant (Parsed (JArr [JObj {[ "id" := JNum 7 ]}]))).
  vm_compute. reflexivity.
Defined.

(** [X30] load reads back what save has written: as many receipts, in
    the same order, each with the properties it had, a seller that was
    missing being the empty string.  The active receipt is the first
    one, whichever it was before. *)
Theorem cartSession_load_after_save s :
  ∃ s',
    load (save s) = Some s'
    ∧ length (receipts s') = length (receipts s)
    ∧ activeReceiptId s' = first_id (receipts s)
    ∧ ∀ i r,
        receipts s !! i = Some r →
        ∃ r',
          receipts s' !! i = Some r'
          ∧ r' !! "seller" = Some (default (JStr "") (r !! "seller"))
          ∧ ∀ k, k ≠ "seller" → r' !! k = r !! k.
Proof.
  eexists. split; [apply load_save|]. cbn [receipts activeReceiptId].
  split; [apply length_fmap|]. split.
  - unfold first_id. destruct (receipts s) as [|r l]; [done|].
    cbn [fmap list_fmap head mbind option_bind].
    by rewrite default_seller_other.
  - intros i r Hr. exists (default_seller r).
    split; [by rewrite list_lookup_fmap, Hr|].
    split; [|intros k Hk; by apply default_seller_other].
    unfold default_seller. destruct (r !! "seller") eqn:Hs; [done|].
    by rewrite lookup_insert_eq.
Qed.

End CartFacts.
